(** * Ellipsoidal nested sampling ([mnest.py]): a shallow embedding

    The Python module [mnest.py] is embedded function by function.
    Floating-point numbers are read as real numbers (Stdlib [R]), Python
    integers as [nat] or [Z], numpy vectors of a fixed dimension as
    MathComp row vectors ['rV[R]_n], numpy arrays of points as sequences
    of such rows, and square arrays as MathComp matrices ['M[R]_n].
    Calls that raise in Python return [None].  The global random state of
    numpy is threaded explicitly through every function that draws. *)

Set Warnings "-notation-overridden,-ambiguous-paths,-deprecated,-notation-incompatible-prefix".
From HB Require Import structures.
From Stdlib Require Import Reals Lra Epsilon FunctionalExtensionality ZArith Lia.
From mathcomp Require Import ssreflect ssrfun ssrbool eqtype ssrnat seq div.
From mathcomp Require Import choice bigop fintype finfun ssralg matrix.
From mathcomp Require Import mxalgebra.

Set Implicit Arguments.
Unset Strict Implicit.
Unset Printing Implicit Defensive.

Delimit Scope R_scope with Re.

(** ** The reals as a MathComp field

    MathComp's matrices need their coefficients in a ring with a choice
    operator.  The instances below put that structure on Stdlib's [R];
    the ring operations are, by conversion, [Rplus], [Rmult], [Ropp] and
    [Rinv]. *)

Definition eqr (r1 r2 : R) : bool :=
  if Req_EM_T r1 r2 is left _ then true else false.

Lemma eqrP : Equality.axiom eqr.
Proof. by move=> r1 r2; rewrite /eqr; case: Req_EM_T => H; [left | right]. Qed.

HB.instance Definition _ := hasDecEq.Build R eqrP.

Fact inhR : inhabited R.
Proof. exact: (inhabits 0%Re). Qed.

Definition pickR (P : pred R) (n : nat) : option R :=
  let x := epsilon inhR P in if P x then Some x else None.

Fact pickR_some P n x : pickR P n = Some x -> P x.
Proof. by rewrite /pickR; case: (boolP (P _)) => // Px [<-]. Qed.

Fact pickR_ex (P : pred R) : (exists x : R, P x) -> exists n, pickR P n.
Proof. by rewrite /pickR => /(epsilon_spec inhR) ->; exists 0%N. Qed.

Fact pickR_ext (P Q : pred R) : P =1 Q -> pickR P =1 pickR Q.
Proof.
move=> PQ n; rewrite /pickR.
have -> : P = Q by apply: functional_extensionality.
by [].
Qed.

HB.instance Definition _ := hasChoice.Build R pickR_some pickR_ex pickR_ext.

Fact RplusA : associative Rplus.
Proof. by move=> x y z; rewrite Rplus_assoc. Qed.

HB.instance Definition _ :=
  GRing.isZmodule.Build R RplusA Rplus_comm Rplus_0_l Rplus_opp_l.

Fact RmultA : associative Rmult.
Proof. by move=> x y z; rewrite Rmult_assoc. Qed.

Fact R1_neq0 : R1 != 0%Re.
Proof. by apply/eqP/R1_neq_R0. Qed.

HB.instance Definition _ :=
  GRing.Zmodule_isComNzRing.Build R
    RmultA Rmult_comm Rmult_1_l Rmult_plus_distr_r R1_neq0.

Fact RmulVf (x : R) : x != 0%Re -> (/ x * x)%Re = 1%Re.
Proof. by move/eqP => x0; rewrite Rinv_l. Qed.

HB.instance Definition _ := GRing.ComNzRing_isField.Build R RmulVf Rinv_0.

Import GRing.Theory.
Local Open Scope ring_scope.

(** Conversions between the ring notations and Stdlib's operations. *)

Lemma natr_INR (n : nat) : n%:R = INR n :> R.
Proof.
elim: n => [|n IH] //; rewrite -addn1 natrD IH plus_INR /=.
by [].
Qed.

Lemma exprR_pow (x : R) (n : nat) : x ^+ n = pow x n.
Proof. by elim: n => [|n IH] //; rewrite exprS IH. Qed.

Ltac to_R :=
  rewrite ?natr_INR ?exprR_pow
    /GRing.add /GRing.mul /GRing.opp /GRing.inv /GRing.zero /GRing.one /=.

(** ** Floating-point and numpy primitives

    Arithmetic is exact, without rounding, overflow or [nan].  Where
    numpy returns [nan] or [inf] (a division by zero, the square root of
    a negative number) Stdlib's total operations return a number; the
    properties below stay away from these inputs. *)

(** Python's [x < y] on floats. *)
Definition Rltb (x y : R) : bool := if Rlt_dec x y then true else false.

Notation "x <b y" := (Rltb x y) (at level 70, no associativity).

(** Python's [x ** y] on floats, for a base [x >= 0] and an exponent
    [y > 0]: [0.0 ** y] is [0.0], which [Rpower] does not give. *)
Definition float_pow (x y : R) : R :=
  if x == 0%Re then 0%Re else Rpower x y.

(** [np.max] of a one-dimensional array; raises on an empty one. *)
Definition np_max (s : seq R) : option R :=
  if s is a :: s' then Some (foldl Rmax a s') else None.

(** [np.argmin]: the first index of the least entry; raises on an empty
    array. *)
Fixpoint argmin_from (s : seq R) (i best : nat) (bestv : R) : nat :=
  if s is a :: s' then
    if a <b bestv then argmin_from s' i.+1 i a
    else argmin_from s' i.+1 best bestv
  else best.

Definition np_argmin (s : seq R) : option nat :=
  if s is a :: s' then Some (argmin_from s' 1 0 a) else None.

(** [np.logaddexp]. *)
Definition np_logaddexp (a b : R) : R := ln (exp a + exp b)%Re.

(** A one-dimensional array of length [n] from a list of numbers. *)
Definition vec_of_seq (n : nat) (s : seq R) : 'rV[R]_n :=
  \row_(j < n) nth 0%Re s j.

(** [np.mean(x, axis=0)] for an array [x] of points (one point per row).
    On an empty array numpy divides by zero and returns [nan]; Stdlib's
    division is total and gives zero there. *)
Definition np_mean (n : nat) (x : seq 'rV[R]_n) : 'rV[R]_n :=
  (/ INR (size x))%Re *: \sum_(r <- x) r.

(** [np.cov(y, rowvar=0)]: the unbiased sample covariance of the rows,
    for at least two rows (with one row numpy divides by zero). *)
Definition np_cov (n : nat) (y : seq 'rV[R]_n) : 'M[R]_n :=
  let ybar := np_mean y in
  (/ (INR (size y) - 1))%Re *: \sum_(r <- y) (r - ybar)^T *m (r - ybar).

(** [np.dot(np.dot(u, a), v)] for two vectors and a square array. *)
Definition quad_form (n : nat) (u : 'rV[R]_n) (a : 'M[R]_n) (v : 'rV[R]_n) : R :=
  (u *m a *m v^T) 0 0.

(** ** Two names of numpy

    [np.linalg.inv] returns the inverse of an invertible matrix.  On a
    singular matrix LAPACK raises [LinAlgError] when it meets a pivot that
    is exactly zero, and returns some array when rounding hides the
    singularity; which of the two happens does not depend on the real
    matrix alone, so the outcome is the parameter [inv_singular].

    numpy has no function [np.det], and the module binds none: the value
    that [ellipsoid_volume] reads under this name is the parameter
    [np_det]. *)

Section Numpy.

Variable inv_singular : forall n : nat, 'M[R]_n -> option 'M[R]_n.
Variable np_det : forall n : nat, 'M[R]_n -> R.

Definition np_linalg_inv (n : nat) (a : 'M[R]_n) : option 'M[R]_n :=
  if a \in unitmx then Some (invmx a) else inv_singular a.

(** ** [bounding_ellipsoid] (lines 18-81)

    For a single variable [np.cov] returns an array of dimension 0, which
    [np.linalg.inv] refuses: in dimension one the function raises on
    every input. *)

Definition bounding_ellipsoid (n : nat) (x : seq 'rV[R]_n)
  : option ('M[R]_n * 'rV[R]_n) :=
  let x_mean := np_mean x in
  let x_prime := [seq r - x_mean | r <- x] in
  let cov := np_cov x_prime in
  if n == 1%N then None
  else
    if np_linalg_inv cov is Some cov_inv then
      let factors := [seq quad_form r cov_inv r | r <- x_prime] in
      if np_max factors is Some fmax then
        let f := sqrt fmax in
        Some (f *: cov, x_mean)
      else None
    else None.

(** The Mahalanobis-squared distances [d_i] of the points under their
    sample covariance: the array [factors] of the source. *)
Definition mahalanobis_factors (n : nat) (x : seq 'rV[R]_n) : option (seq R) :=
  let x_mean := np_mean x in
  let x_prime := [seq r - x_mean | r <- x] in
  if n == 1%N then None
  else
    if np_linalg_inv (np_cov x_prime) is Some cov_inv then
      Some [seq quad_form r cov_inv r | r <- x_prime]
    else None.

(** ** [ellipsoid_volume] (lines 83-110)

    The two [while] loops run at most [ndim] times, which is the fuel
    given to [volume_loop]. *)

Fixpoint volume_loop (fuel i ndim : nat) (vol : R) : R :=
  if fuel is fuel'.+1 then
    if (i <= ndim)%N then
      volume_loop fuel' (i + 2) ndim (vol * (2 / INR i * PI))%Re
    else vol
  else vol.

Definition ellipsoid_volume (n : nat) (scaled_cov : 'M[R]_n) : R :=
  let vol := sqrt (np_det scaled_cov) in
  let ndim := n in
  if ndim %% 2 == 0 then volume_loop ndim 2 ndim vol
  else volume_loop ndim 3 ndim (vol * 2)%Re.

(** ** The head of [bounding_ellipsoids] (lines 161-172)

    The fit of a single ellipsoid and the test against the volume floor
    [min_vol].  [bounding_ellipsoid] returns a tuple, so the augmented
    assignment [ellipsoid[0] *= c] of line 171 multiplies the shape array
    in place by [c] and then raises [TypeError] at the assignment into
    the tuple: below the floor the function raises, and line 172 is never
    reached.  [enlargement_factor] is the factor [c];  [1./ndim] raises
    for [ndim = 0].  The 2-means split that follows in the source reads
    names that are never bound and is not part of the embedding. *)

Definition enlargement_factor (ndim : nat) (min_vol ellipsoid_vol : R)
  : option R :=
  if ndim is 0 then None
  else Some (float_pow (min_vol / ellipsoid_vol) (1 / INR ndim)).

Definition bounding_ellipsoids_head (n : nat) (x : seq 'rV[R]_n) (min_vol : R)
    (ellipsoid : option ('M[R]_n * 'rV[R]_n)) (ellipsoid_vol : option R)
  : option (('M[R]_n * 'rV[R]_n) * option R) :=
  if ellipsoid is Some e then Some (e, ellipsoid_vol)
  else
    if bounding_ellipsoid x is Some (shape, center) then
      let vol := ellipsoid_volume shape in
      if vol <b min_vol then None
      else Some ((shape, center), Some vol)
    else None.

End Numpy.

(** The determinant, for the name [np.det]. *)
Definition det_mx (n : nat) (a : 'M[R]_n) : R := \det a.

(** ** Random draws

    numpy's global generator is an abstract state [rng] with two
    primitive draws: [rand] for [np.random.rand()], a uniform deviate,
    and [randn] for one standard normal deviate.  Arrays of deviates are
    filled in index order. *)

Section Sampling.

Variable rng : Type.
Variable rand : rng -> R * rng.
Variable randn : rng -> R * rng.

Fixpoint draws (draw : rng -> R * rng) (n : nat) (g : rng) : seq R * rng :=
  if n is n'.+1 then
    let: (a, g1) := draw g in
    let: (s, g2) := draws draw n' g1 in
    (a :: s, g2)
  else ([::], g).

(** [np.random.randn(n)]. *)
Definition np_random_randn (n : nat) (g : rng) : 'rV[R]_n * rng :=
  let: (s, g') := draws randn n g in (vec_of_seq n s, g').

(** [np.random.random((nobj, npar))]. *)
Fixpoint np_random_random (nobj npar : nat) (g : rng)
  : seq 'rV[R]_npar * rng :=
  if nobj is nobj'.+1 then
    let: (s, g1) := draws rand npar g in
    let: (rows, g2) := np_random_random nobj' npar g1 in
    (vec_of_seq npar s :: rows, g2)
  else ([::], g).

(** *** [randsphere] (lines 12-16)

    [1./n] raises [ZeroDivisionError] for [n = 0].  When every normal
    deviate is zero numpy divides zero by zero and returns [nan]; Stdlib's
    division gives the zero vector there. *)

Definition randsphere (n : nat) (g : rng) : option ('rV[R]_n * rng) :=
  let: (z, g1) := np_random_randn n g in
  if n is 0 then None
  else
    let: (r, g2) := rand g1 in
    Some (\row_j (z ord0 j * float_pow r (1 / INR n)
                    / sqrt (\sum_k (z ord0 k ^ 2)%Re))%Re, g2).

(** *** [sample_ellipsoid] (lines 112-139)

    [np.linalg.eig] is a parameter: it returns the eigenvalues [w] and
    the array [v] whose columns are the eigenvectors.  A call with
    [nsamples = 1] returns one point ([inl]), any other call an array of
    [nsamples] points ([inr]). *)

Variable eig : forall n : nat, 'M[R]_n -> 'rV[R]_n * 'M[R]_n.

Definition scaled_eigenvectors (n : nat) (scaled_cov : 'M[R]_n) : 'M[R]_n :=
  let: (w, v) := eig scaled_cov in
  v *m diag_mx (map_mx sqrt w).

Fixpoint sample_rows (n : nat) (vs : 'M[R]_n) (x_mean : 'rV[R]_n)
    (nsamples : nat) (g : rng) : option (seq 'rV[R]_n * rng) :=
  if nsamples is k.+1 then
    if randsphere n g is Some (s, g1) then
      if sample_rows vs x_mean k g1 is Some (x, g2) then
        Some ((s *m vs^T + x_mean) :: x, g2)
      else None
    else None
  else Some ([::], g).

Definition sample_ellipsoid (n : nat) (scaled_cov : 'M[R]_n)
    (x_mean : 'rV[R]_n) (nsamples : nat) (g : rng)
  : option (('rV[R]_n + seq 'rV[R]_n) * rng) :=
  let vs := scaled_eigenvectors scaled_cov in
  let ndim := n in
  if nsamples == 1%N then
    if randsphere ndim g is Some (s, g1) then
      Some (inl (s *m vs^T + x_mean), g1)
    else None
  else
    if sample_rows vs x_mean nsamples g is Some (x, g1) then Some (inr x, g1)
    else None.

(** ** [nest] (lines 227-408)

    The callbacks [loglikelihood] and [prior] are parameters, and so is
    [ellipsoid], which the source calls but does not define.  Every call
    of a callback and every candidate drawn is appended to a ghost
    [trace].  The rejection loop of the source is unbounded: here it gives
    up ([None]) after [fuel] candidates.  Progress output and the
    wall-clock field [time] of the result are left out. *)

Section Nest.

Variable npar : nat.
Variable loglikelihood : 'rV[R]_npar -> R.
Variable prior : 'rV[R]_npar -> 'rV[R]_npar.
Variable ellipsoid : seq 'rV[R]_npar -> R -> 'M[R]_npar * 'rV[R]_npar.
Variable nobj : nat.
Variable fuel : nat.

(** The ghost events of a run: a call of [prior], a call of
    [loglikelihood], a candidate returned by [sample_ellipsoid]. *)
Inductive event : Type :=
  | CallPrior of 'rV[R]_npar
  | CallLoglikelihood of 'rV[R]_npar
  | Candidate of 'rV[R]_npar.

(** The variables of [nest] that live across the passes of the main
    loop, with the generator state and the ghost trace. *)
Record state : Type := State {
  objects_u : seq 'rV[R]_npar;
  objects_v : seq 'rV[R]_npar;
  objects_logl : seq R;
  samples_parvals : seq 'rV[R]_npar;
  samples_logwt : seq R;
  h : R;
  logz : R;
  logwidth : R;
  loglcalls : nat;
  ndecl : nat;
  logwt_old : option R;
  gen : rng;
  trace : seq event
}.

(** The initial value [-1.e300] of [logz] (line 308). *)
Definition logz_init : R := (-1 * 10 ^ 300)%Re.

(** [a[i] = x] on an array: raises when [i] is out of range. *)
Definition assign (T : Type) (s : seq T) (i : nat) (x : T) : option (seq T) :=
  if (i < size s)%N then Some (set_nth x s i x) else None.

(** Lines 295-316.  [1./nobj] raises for [nobj = 0]. *)
Definition init_state (g : rng) : option state :=
  let: (us, g1) := np_random_random nobj npar g in
  let vs := [seq prior u | u <- us] in
  let logls := [seq loglikelihood v | v <- vs] in
  let tr := flatten [seq [:: CallPrior u; CallLoglikelihood (prior u)] | u <- us] in
  if nobj is 0 then None
  else
    Some {| objects_u := us; objects_v := vs; objects_logl := logls;
            samples_parvals := [::]; samples_logwt := [::];
            h := 0; logz := logz_init;
            logwidth := ln (1 - exp (- 1 / INR nobj));
            loglcalls := nobj; ndecl := 0; logwt_old := None;
            gen := g1; trace := tr |}.

(** The unit-cube test of line 352: [np.any(u < 0.) or np.any(u > 1.)]. *)
Definition outside_cube (u : 'rV[R]_npar) : bool :=
  [exists j, u ord0 j <b 0%Re] || [exists j, 1%Re <b u ord0 j].

(** Lines 350-363: draw candidates until one beats [loglstar]. *)
Fixpoint replace_loop (k : nat) (vs : 'M[R]_npar) (mean : 'rV[R]_npar)
    (loglstar : R) (calls : nat) (g : rng) (tr : seq event)
  : option ('rV[R]_npar * 'rV[R]_npar * R * nat * rng * seq event) :=
  if k is k'.+1 then
    if sample_ellipsoid vs mean 1 g is Some (inl u, g1) then
      let tr1 := rcons tr (Candidate u) in
      if outside_cube u then replace_loop k' vs mean loglstar calls g1 tr1
      else
        let v := prior u in
        let logl := loglikelihood v in
        let calls1 := calls.+1 in
        let tr2 := rcons (rcons tr1 (CallPrior u)) (CallLoglikelihood v) in
        if loglstar <b logl then Some (u, v, logl, calls1, g1, tr2)
        else replace_loop k' vs mean loglstar calls1 g1 tr2
    else None
  else None.

(** The evidence and information update of lines 331-335 and 390-394. *)
Definition update_h (h logz logwt logl : R) : R :=
  let logz_new := np_logaddexp logz logwt in
  (exp (logwt - logz_new) * logl
   + exp (logz - logz_new) * (h + logz) - logz_new)%Re.

(** Lines 370-373: the run-length counter of declining weights.  On the
    first iteration [logwt_old] is [None], which Python 2 orders below
    every number. *)
Definition next_ndecl (logwt : R) (old : option R) (ndecl : nat) : nat :=
  if (if old is Some o then logwt <b o else false) then ndecl.+1 else 0.

(** Line 374.  [it / 6] divides two integers. *)
Definition stop_rule (ndecl it : nat) : bool :=
  (10 < ndecl)%N && (it %/ 6 < ndecl)%N.

(** One pass through the body of the main loop (lines 326-376); the
    boolean tells whether the pass ended in [break]. *)
Definition iteration (it : nat) (st : state) : option (state * bool) :=
  if np_argmin (objects_logl st) is Some worst then
    let logl_worst := nth 0%Re (objects_logl st) worst in
    let logwt := (logwidth st + logl_worst)%Re in
    let logz_new := np_logaddexp (logz st) logwt in
    let h1 := update_h (h st) (logz st) logwt logl_worst in
    let parvals1 := rcons (samples_parvals st) (nth 0 (objects_v st) worst) in
    let logwt1 := rcons (samples_logwt st) logwt in
    let loglstar := logl_worst in
    let: (vs, mean) := ellipsoid (objects_u st) (106 / 100)%Re in
    if replace_loop fuel vs mean loglstar (loglcalls st) (gen st) (trace st)
      is Some (u, v, logl, calls, g, tr) then
      if assign (objects_u st) worst u is Some ou then
      if assign (objects_v st) worst v is Some ov then
      if assign (objects_logl st) worst logl is Some ol then
        let logwidth1 := (logwidth st - 1 / INR nobj)%Re in
        let ndecl1 := next_ndecl logwt (logwt_old st) (ndecl st) in
        let stop := stop_rule ndecl1 it in
        Some ({| objects_u := ou; objects_v := ov; objects_logl := ol;
                 samples_parvals := parvals1; samples_logwt := logwt1;
                 h := h1; logz := logz_new; logwidth := logwidth1;
                 loglcalls := calls; ndecl := ndecl1;
                 logwt_old := if stop then logwt_old st else Some logwt;
                 gen := g; trace := tr |}, stop)
      else None else None else None
    else None
  else None.

(** [for it in range(maxiter)]: [n] passes remain, [it] is the next
    index and [last] the value the variable [it] holds so far.  The result
    carries the final value of [it] and whether the loop ended in
    [break]. *)
Fixpoint main_loop (n it : nat) (last : option nat) (st : state)
  : option (state * option nat * bool) :=
  if n is n'.+1 then
    if iteration it st is Some (st1, stop) then
      if stop then Some (st1, Some it, true)
      else main_loop n' it.+1 (Some it) st1
    else None
  else Some (st, last, false).

(** Line 387.  Under Python 2 the quotient of the two integers
    [-len(samples_parvals)] and [nobj] is their floor division. *)
Definition final_logwidth (nsamples : nat) : R :=
  (IZR (- Z.of_nat nsamples / Z.of_nat nobj) - ln (INR nobj))%Re.

(** Lines 389-396: fold live point [i] into the accumulators. *)
Definition finalize_step (st : state) (i : nat) : state :=
  let logl_i := nth 0%Re (objects_logl st) i in
  let logwt := (logwidth st + logl_i)%Re in
  {| objects_u := objects_u st; objects_v := objects_v st;
     objects_logl := objects_logl st;
     samples_parvals := rcons (samples_parvals st) (nth 0 (objects_v st) i);
     samples_logwt := rcons (samples_logwt st) logwt;
     h := update_h (h st) (logz st) logwt logl_i;
     logz := np_logaddexp (logz st) logwt;
     logwidth := logwidth st;
     loglcalls := loglcalls st; ndecl := ndecl st;
     logwt_old := logwt_old st; gen := gen st; trace := trace st |}.

(** Lines 382-396. *)
Definition finalize (st : state) : state :=
  let st1 :=
    {| objects_u := objects_u st; objects_v := objects_v st;
       objects_logl := objects_logl st;
       samples_parvals := samples_parvals st;
       samples_logwt := samples_logwt st;
       h := h st; logz := logz st;
       logwidth := final_logwidth (size (samples_parvals st));
       loglcalls := loglcalls st; ndecl := ndecl st;
       logwt_old := logwt_old st; gen := gen st; trace := trace st |} in
  foldl finalize_step st1 (iota 0 nobj).

(** The dictionary returned by [nest], without its [time] entry. *)
Record result : Type := Result {
  res_niter : nat;
  res_ncalls : nat;
  res_logz : R;
  res_logzerr : R;
  res_loglmax : R;
  res_h : R;
  res_samples_parvals : seq 'rV[R]_npar;
  res_samples_wt : seq R
}.

(** Lines 398-408.  [it] is unbound when the loop body never ran, and
    [math.sqrt] raises on a negative argument. *)
Definition make_result (st : state) (last : option nat) : option result :=
  if last is Some it then
    if (h st / INR nobj)%Re <b 0%Re then None
    else
      if np_max (objects_logl st) is Some lmax then
        Some {| res_niter := it.+1; res_ncalls := loglcalls st;
                res_logz := logz st;
                res_logzerr := sqrt (h st / INR nobj);
                res_loglmax := lmax; res_h := h st;
                res_samples_parvals := samples_parvals st;
                res_samples_wt :=
                  [seq exp (lw - logz st) | lw <- samples_logwt st] |}
      else None
  else None.

Definition nest (maxiter : nat) (g : rng) : option (result * seq event) :=
  if init_state g is Some st0 then
    if main_loop maxiter 0 None st0 is Some (st1, last, _) then
      let st2 := finalize st1 in
      if make_result st2 last is Some res then Some (res, trace st2)
      else None
    else None
  else None.

(** *** Vocabulary of the properties *)

(** Events of the trace, by kind. *)
Definition is_loglike (e : event) : bool :=
  if e is CallLoglikelihood _ then true else false.

Definition is_candidate (e : event) : bool :=
  if e is Candidate _ then true else false.

Definition is_discarded (e : event) : bool :=
  if e is Candidate u then outside_cube u else false.

Definition prior_arg_ok (P : pred 'rV[R]_npar) (e : event) : bool :=
  if e is CallPrior u then P u else true.

(** The number of passes a loop has made, from the last value of [it]. *)
Definition passes (last : option nat) : nat :=
  if last is Some it then it.+1 else 0.

(** The domain the documentation of [nest] gives to [prior]: every
    component in the half-open interval [[0, 1)]. *)
Definition in_unit_cube (u : 'rV[R]_npar) : Prop :=
  forall j, (0 <= u ord0 j < 1)%Re.

(** *** The stopping rule

    [samples_logwt] holds the weight [logwt] of every pass made so far,
    oldest first.  [run_length declined] replays a run-length counter over
    such a history: a pass counts when its weight [declined] against the
    weight of the pass before, and resets the counter otherwise; the first
    pass has no predecessor and resets it. *)

Fixpoint run_length (declined : R -> R -> bool) (old : option R) (c : nat)
    (ws : seq R) : nat :=
  if ws is w :: ws' then
    run_length declined (Some w)
      (if (if old is Some o then declined w o else false) then c.+1 else 0)
      ws'
  else c.

(** The counter of the source: the weight is strictly below the previous
    one. *)
Definition strictly_below (w old : R) : bool := w <b old.

(** The counter as the specification words it: the weight failed to
    exceed the previous one. *)
Definition failed_to_exceed (w old : R) : bool := ~~ (old <b w).

(** The rule at pass [j] of a history [ws]: the counter after pass [j]
    exceeds both 10 and [j/6]. *)
Definition rule_at (declined : R -> R -> bool) (ws : seq R) (j : nat) : Prop :=
  let c := run_length declined None 0 (take j.+1 ws) in
  (10 < c)%N /\ (INR j / 6 < INR c)%Re.

(** The loop leaves by [break] at exactly the passes where the rule
    holds. *)
Definition stops_exactly_when (declined : R -> R -> bool) : Prop :=
  forall (g : rng) (maxiter : nat) (st0 st : state) (last : option nat)
         (stopped : bool),
    init_state g = Some st0 ->
    main_loop maxiter 0 None st0 = Some (st, last, stopped) ->
    forall j, (j < passes last)%N ->
      (rule_at declined (samples_logwt st) j <-> stopped /\ last = Some j).

End Nest.

End Sampling.

Arguments is_loglike {npar} e.
Arguments is_candidate {npar} e.
Arguments is_discarded {npar} e.
Arguments prior_arg_ok {npar} P e.
Arguments in_unit_cube {npar} u.

(** The squared Euclidean norm of a vector. *)
Definition sqnorm (n : nat) (s : 'rV[R]_n) : R := (s *m s^T) 0 0.

(** The points of a result of [sample_ellipsoid]. *)
Definition points_of (n : nat) (r : 'rV[R]_n + seq 'rV[R]_n) : seq 'rV[R]_n :=
  match r with inl x => [:: x] | inr xs => xs end.

(** The volume of the unit ball of dimension [n], as [ellipsoid_volume]
    computes it. *)
Definition unit_ball_volume (n : nat) : R :=
  if n %% 2 == 0 then volume_loop n 2 n 1 else volume_loop n 3 n (1 * 2).

(** ** Vocabulary of the further properties *)

(** The calls of the two callbacks in a trace. *)
Definition is_call (npar : nat) (e : event npar) : bool := ~~ is_candidate e.

(** The calls that evaluating the points [us] leaves in the trace: for
    every point a call of [prior] on it and a call of [loglikelihood] on
    what [prior] returned. *)
Definition evaluations (npar : nat) (prior : 'rV[R]_npar -> 'rV[R]_npar)
    (us : seq 'rV[R]_npar) : seq (event npar) :=
  flatten [seq [:: CallPrior u; CallLoglikelihood (prior u)] | u <- us].


(** The three parallel arrays of the live set are in step: each has
    [nobj] entries, entry [i] of [objects_v] is [prior] of entry [i] of
    [objects_u], entry [i] of [objects_logl] is [loglikelihood] of entry
    [i] of [objects_v], and the entries of [objects_u] have the property
    [C]. *)
Definition in_step (rng : Type) (npar : nat)
    (loglikelihood : 'rV[R]_npar -> R) (prior : 'rV[R]_npar -> 'rV[R]_npar)
    (nobj : nat) (C : pred 'rV[R]_npar) (s : state rng npar) : Prop :=
  [/\ size (objects_u s) = nobj, size (objects_v s) = nobj,
      size (objects_logl s) = nobj
    & forall i, (i < nobj)%N ->
        [/\ nth 0 (objects_v s) i = prior (nth 0 (objects_u s) i),
            nth 0 (objects_logl s) i = loglikelihood (nth 0 (objects_v s) i)
          & C (nth 0 (objects_u s) i)]].

(** The volume of the unit ball of dimension [n], by its recurrence:
    [V_0 = 1], [V_1 = 2], [V_n = 2 pi / n * V_(n-2)]. *)
Fixpoint ball_volume (n : nat) : R :=
  if n is m.+1 then
    if m is k.+1 then (2 * PI / INR n * ball_volume k)%Re else 2%Re
  else 1%Re.

(** The rows of an array of points, as a matrix. *)
Definition rows_mx (n : nat) (y : seq 'rV[R]_n) : 'M[R]_(size y, n) :=
  \matrix_(i < size y) nth 0 y i.

(** * Concrete inputs *)

(** ** A concrete random source

    The generator state is a tape of numbers that the draws consume in
    order: [rand] clips the next number into [[0, 1)], [randn] replaces a
    zero by one.  [eig_diag] returns the diagonal and the identity, the
    eigendecomposition of a diagonal matrix. *)

Module Tape.

Definition rng : Type := seq R.

Definition clip (x : R) : R :=
  if Rle_dec 0 x is left _ then
    if Rlt_dec x 1 is left _ then x else 0%Re
  else 0%Re.

Definition rand (g : rng) : R * rng := (clip (head 0%Re g), behead g).

Definition nonzero (x : R) : R := if x == 0%Re then 1%Re else x.

Definition randn (g : rng) : R * rng := (nonzero (head 1%Re g), behead g).

Definition eig_diag (n : nat) (a : 'M[R]_n) : 'rV[R]_n * 'M[R]_n :=
  (\row_j a j j, 1%:M).

End Tape.

(** ** Concrete inputs of the ellipsoid fit *)

Module FitInput.

Definition vec2 (a b : R) : 'rV[R]_2 := vec_of_seq 2 [:: a; b].

Definition mat2 (a b c d : R) : 'M[R]_2 :=
  \matrix_(i, j) nth 0%Re (nth [::] [:: [:: a; b]; [:: c; d]] i) j.

(** Four points of the plane. *)
Definition demo_x : seq 'rV[R]_2 :=
  [:: vec2 4 1; vec2 0 2; vec2 0 0; vec2 0 1].

(** The same points, centered. *)
Definition demo_x_prime : seq 'rV[R]_2 :=
  [:: vec2 3 0; vec2 (-1) 1; vec2 (-1) (-1); vec2 (-1) 0].

(** The same points under the map [r |-> r diag(2, 3) + (1, 2)]. *)
Definition demo_x_image : seq 'rV[R]_2 :=
  [seq r *m mat2 2 0 0 3 + vec2 1 2 | r <- demo_x].

(** An inversion that raises on every singular matrix. *)
Definition inv_raises (n : nat) (a : 'M[R]_n) : option 'M[R]_n := None.

End FitInput.

(** ** Concrete inputs of [nest]

    One parameter; the prior transform is the identity, the
    log-likelihood is [26 (v - 1/2)], and [ellipsoid] returns the unit
    shape centered at [1/2].  With the normal deviate [1] and the uniform
    deviate [r] on the tape, the candidate drawn is [1/2 + r]. *)

Module RunInput.

Definition pt (a : R) : 'rV[R]_1 := vec_of_seq 1 [:: a].

Definition prior (u : 'rV[R]_1) : 'rV[R]_1 := u.

Definition loglikelihood (v : 'rV[R]_1) : R := (26 * (v ord0 ord0 - 1 / 2))%Re.

Definition ellipsoid (_ : seq 'rV[R]_1) (_ : R) : 'M[R]_1 * 'rV[R]_1 :=
  (1%:M, pt (1 / 2)).

(** The state after a pass that replaces the live point [w] by the
    candidate [1/2 + r]. *)
Definition pass_state (nobj : nat) (st : state Tape.rng 1) (w : nat) (r : R)
    (g : Tape.rng) (nd : nat) (stop : bool) : state Tape.rng 1 :=
  let u := pt (1 / 2 + r) in
  let l := nth 0%Re (objects_logl st) w in
  let logwt := (logwidth st + l)%Re in
  {| objects_u := set_nth u (objects_u st) w u;
     objects_v := set_nth u (objects_v st) w u;
     objects_logl := set_nth (26 * r)%Re (objects_logl st) w (26 * r)%Re;
     samples_parvals := rcons (samples_parvals st) (nth 0 (objects_v st) w);
     samples_logwt := rcons (samples_logwt st) logwt;
     h := update_h (h st) (logz st) logwt l;
     logz := np_logaddexp (logz st) logwt;
     logwidth := (logwidth st - 1 / INR nobj)%Re;
     loglcalls := (loglcalls st).+1;
     ndecl := nd;
     logwt_old := if stop then logwt_old st else Some logwt;
     gen := g;
     trace := trace st ++ [:: Candidate u; CallPrior u; CallLoglikelihood u] |}.

(** The initial log width for one live point. *)
Definition lw0 : R := ln (1 - exp (- 1 / INR 1)).

(** A second log-likelihood, [32 (v - 1/2)], and the random numbers of
    a run of fifteen passes with one live point under it: the initial
    position, then a normal and a uniform deviate for every candidate.
    The log-likelihoods of the successive live points are
    [0, 1/2, 1, 2, 5/2, 3, ..., 8]: the weight of pass 3 equals the weight
    of pass 2 and every other weight is below the one before.  Every
    number on the tape and every log-likelihood is a dyadic rational; the
    log widths of passes 2 and 3 lie between -4 and -2, where binary
    floating point subtracts 1 without rounding, so the two weights are
    equal in floating point too. *)
Definition loglikelihood32 (v : 'rV[R]_1) : R :=
  (32 * (v ord0 ord0 - 1 / 2))%Re.

Definition tape15 : Tape.rng :=
  [:: 1 / 2;
      1; 1 / 64; 1; 2 / 64; 1; 4 / 64; 1; 5 / 64; 1; 6 / 64; 1; 7 / 64;
      1; 8 / 64; 1; 9 / 64; 1; 10 / 64; 1; 11 / 64; 1; 12 / 64; 1; 13 / 64;
      1; 14 / 64; 1; 15 / 64; 1; 16 / 64]%Re.

(** The random numbers of a run of one pass with one live point: the
    initial position [1/2] and the candidate [1/2 + 1/2]; the state after
    the initialization and the state after the pass. *)
Definition tape1 : Tape.rng := [:: 1 / 2; 1; 1 / 2]%Re.

Definition st1_init : state Tape.rng 1 :=
  State [:: pt (1 / 2)] [:: pt (1 / 2)] [:: (26 * (1 / 2 - 1 / 2))%Re] [::] [::]
    0 logz_init lw0 1 0 None [:: 1; 1 / 2]%Re
    [:: CallPrior (pt (1 / 2)); CallLoglikelihood (pt (1 / 2))].

Definition st1_pass : state Tape.rng 1 :=
  pass_state 1 st1_init 0 (1 / 2) [::] 0 false.

(** The random numbers of a run of one pass with two live points: the
    initial positions [1/2] and [3/4] and the candidate [1/2 + 1/4]; the
    state after the initialization and the state after the pass. *)
Definition tape2 : Tape.rng := [:: 1 / 2; 3 / 4; 1; 1 / 4]%Re.

Definition st2_init : state Tape.rng 1 :=
  State [:: pt (1 / 2); pt (3 / 4)] [:: pt (1 / 2); pt (3 / 4)]
    [:: (26 * (1 / 2 - 1 / 2))%Re; (26 * (3 / 4 - 1 / 2))%Re] [::] [::]
    0 logz_init (ln (1 - exp (- 1 / INR 2))) 2 0 None [:: 1; 1 / 4]%Re
    [:: CallPrior (pt (1 / 2)); CallLoglikelihood (pt (1 / 2));
        CallPrior (pt (3 / 4)); CallLoglikelihood (pt (3 / 4))].

Definition st2_pass : state Tape.rng 1 :=
  pass_state 2 st2_init 0 (1 / 4) [::] 0 false.

End RunInput.

(** * Properties *)

(** ** Comparisons, [np.argmin], array assignment *)

Lemma RltbP (x y : R) : reflect (x < y)%Re (x <b y).
Proof. by rewrite /Rltb; case: Rlt_dec => H; [left | right]. Qed.

Lemma RltbF (x y : R) : (x <b y) = false -> (y <= x)%Re.
Proof. by case: RltbP => // /Rnot_lt_le. Qed.

Lemma argmin_fromP (pre s : seq R) (best : nat) :
  (best < size pre)%N ->
  (forall j, (j < size pre)%N -> (nth 0%Re pre best <= nth 0%Re pre j)%Re) ->
  let r := argmin_from s (size pre) best (nth 0%Re pre best) in
  (r < size (pre ++ s))%N /\
  (forall j, (j < size (pre ++ s))%N ->
     (nth 0%Re (pre ++ s) r <= nth 0%Re (pre ++ s) j)%Re).
Proof.
elim: s pre best => [|a s IH] pre best Hb Hmin /=.
  by rewrite cats0.
have Hsz : size (rcons pre a) = (size pre).+1 by rewrite size_rcons.
have Hcat : pre ++ a :: s = rcons pre a ++ s by rewrite cat_rcons.
case: RltbP => Hlt.
- have := IH (rcons pre a) (size pre).
  rewrite Hsz nth_rcons ltnn eqxx -Hcat; apply=> // j.
  rewrite ltnS nth_rcons leq_eqVlt; case/orP => [/eqP ->|Hj].
    by rewrite ltnn eqxx; apply: Rle_refl.
  by rewrite Hj; apply: Rle_trans (Hmin j Hj); apply: Rlt_le.
- have := IH (rcons pre a) best.
  rewrite Hsz nth_rcons Hb -Hcat; apply; first exact: ltnW.
  move=> j; rewrite ltnS nth_rcons leq_eqVlt; case/orP => [/eqP ->|Hj].
    by rewrite ltnn eqxx; apply: Rnot_lt_le.
  by rewrite Hj; apply: Hmin.
Qed.

Lemma np_argminP (s : seq R) (worst : nat) :
  np_argmin s = Some worst ->
  (worst < size s)%N /\
  (forall j, (j < size s)%N -> (nth 0%Re s worst <= nth 0%Re s j)%Re).
Proof.
case: s => [|a s] //= [<-].
have := @argmin_fromP [:: a] s 0; apply=> // j.
by rewrite ltnS leqn0 => /eqP ->; apply: Rle_refl.
Qed.

Lemma assignP (T : Type) (x0 : T) (s t : seq T) (i : nat) (x : T) :
  assign s i x = Some t ->
  [/\ (i < size s)%N, size t = size s, nth x0 t i = x
    & forall j, j != i -> nth x0 t j = nth x0 s j].
Proof.
rewrite /assign; case: ifP => // Hi [<-].
have Hsz : size (set_nth x s i x) = size s.
  by rewrite size_set_nth; apply/maxn_idPr.
have Hnth j : nth x0 (set_nth x s i x) j = if j == i then x else nth x0 s j.
  case: (ltnP j (size s)) => Hj.
    rewrite (set_nth_default x) ?Hsz // nth_set_nth /=.
    by case: eqP => // _; apply: set_nth_default.
  rewrite !nth_default ?Hsz //.
  by case: eqP => // Hji; move: Hj; rewrite Hji leqNgt Hi.
by split=> // [|j /negbTE Hj]; rewrite Hnth ?eqxx ?Hj.
Qed.

(** ** The main loop of [nest] *)

Section NestFacts.

Variable rng : Type.
Variable rand : rng -> R * rng.
Variable randn : rng -> R * rng.
Variable eig : forall n : nat, 'M[R]_n -> 'rV[R]_n * 'M[R]_n.
Variable npar : nat.
Variable loglikelihood : 'rV[R]_npar -> R.
Variable prior : 'rV[R]_npar -> 'rV[R]_npar.
Variable ellipsoid : seq 'rV[R]_npar -> R -> 'M[R]_npar * 'rV[R]_npar.
Variable nobj : nat.
Variable fuel : nat.

Local Notation state := (state rng npar).
Local Notation event := (event npar).
Local Notation replace_loop' :=
  (replace_loop rand randn eig loglikelihood prior).
Local Notation iteration' :=
  (iteration rand randn eig loglikelihood prior ellipsoid nobj fuel).
Local Notation main_loop' :=
  (main_loop rand randn eig loglikelihood prior ellipsoid nobj fuel).
Local Notation init_state' :=
  (init_state rand loglikelihood prior nobj (npar := npar)).
Local Notation nest' :=
  (nest rand randn eig loglikelihood prior ellipsoid nobj fuel).
Local Notation stops_exactly_when' :=
  (stops_exactly_when rand randn eig loglikelihood prior ellipsoid nobj fuel).

(** What a finished rejection loop has done. *)
Lemma replace_loopP (k : nat) vs mean loglstar calls g tr u v logl calls1 g1 tr1 :
  replace_loop' k vs mean loglstar calls g tr
    = Some (u, v, logl, calls1, g1, tr1) ->
  exists added : seq event,
    [/\ tr1 = tr ++ added,
        [/\ v = prior u, logl = loglikelihood v, (loglstar < logl)%Re
          & ~~ outside_cube u],
        [/\ calls1 = (calls + count is_loglike added)%N,
            (count is_candidate added
               = count is_discarded added + count is_loglike added)%N
          & (0 < count is_loglike added)%N]
      & all (prior_arg_ok (fun u => ~~ outside_cube u)) added].
Proof.
elim: k calls g tr => [|k IH] calls g tr //=.
case: sample_ellipsoid => [[[u0|//] g0]|] //.
case Hout: (outside_cube u0).
  case/IH => added [-> Hv [-> Hc Hpos] Hall].
  exists (Candidate u0 :: added); split=> //=.
  - by rewrite cat_rcons.
  - by split=> //=; rewrite Hout /= Hc.
case: RltbP => Hlt.
  case=> <- <- <- <- _ <-.
  exists [:: Candidate u0; CallPrior u0; CallLoglikelihood (prior u0)].
  split=> //=; rewrite ?Hout ?addn1 //.
  by rewrite -!cats1 -!catA.
case/IH => added [-> Hv [-> Hc Hpos] Hall].
exists [:: Candidate u0, CallPrior u0, CallLoglikelihood (prior u0) & added].
split=> //=; rewrite ?Hout //=.
- by rewrite -!cats1 -!catA.
- by rewrite !add0n !add1n addSnnS Hc addnS; split=> //; rewrite addnS.
Qed.

(** A pass of the loop body, taken apart. *)
Lemma iterationP (it : nat) (st st1 : state) (stop : bool) :
  iteration' it st = Some (st1, stop) ->
  exists worst u v logl,
    let logl_worst := nth 0%Re (objects_logl st) worst in
    let logwt := (logwidth st + logl_worst)%Re in
    let e := ellipsoid (objects_u st) (106 / 100)%Re in
    [/\ np_argmin (objects_logl st) = Some worst,
        replace_loop' fuel e.1 e.2 logl_worst (loglcalls st) (gen st) (trace st)
          = Some (u, v, logl, loglcalls st1, gen st1, trace st1),
        [/\ assign (objects_u st) worst u = Some (objects_u st1),
            assign (objects_v st) worst v = Some (objects_v st1)
          & assign (objects_logl st) worst logl = Some (objects_logl st1)],
        [/\ samples_parvals st1
              = rcons (samples_parvals st) (nth 0 (objects_v st) worst),
            samples_logwt st1 = rcons (samples_logwt st) logwt,
            h st1 = update_h (h st) (logz st) logwt logl_worst
          & logz st1 = np_logaddexp (logz st) logwt]
      & [/\ logwidth st1 = (logwidth st - 1 / INR nobj)%Re,
            ndecl st1 = next_ndecl logwt (logwt_old st) (ndecl st),
            stop = stop_rule (ndecl st1) it
          & logwt_old st1 = if stop then logwt_old st else Some logwt]].
Proof.
rewrite /iteration.
case Hw: np_argmin => [worst|] //.
case He: ellipsoid => [vs mean].
case Hr: replace_loop => [[[[[[u v] logl] calls] g] tr]|] //.
case Hu: assign => [ou|] //; case Hv: assign => [ov|] //.
case Hl: assign => [ol|] // [<- <-] /=.
by exists worst, u, v, logl.
Qed.

(** Induction along the main loop: a property of (number of passes made,
    state) that every pass preserves holds when the loop is left. *)
Lemma main_loopP (P : nat -> state -> Prop) :
  (forall it st st1 stop,
     P it st -> iteration' it st = Some (st1, stop) -> P it.+1 st1) ->
  forall n it last st st1 last1 stopped,
    passes last = it -> P it st ->
    main_loop' n it last st = Some (st1, last1, stopped) ->
    P (passes last1) st1.
Proof.
move=> Hstep; elim=> [|n IH] it last st st1 last1 stopped Hlast HP /=.
  by case=> <- <- _; rewrite Hlast.
case Hit: iteration => [[st2 stop]|] //.
have HP2 := Hstep _ _ _ _ HP Hit.
case: stop Hit => Hit; first by case=> <- <- _.
exact: IH.
Qed.

Lemma size_np_random_random (n : nat) (g : rng) :
  size (np_random_random rand n npar g).1 = n.
Proof.
elim: n g => [|n IH] g //=.
case: draws => s g1; case Hr: np_random_random => [rows g2] /=.
by move: (IH g1); rewrite Hr /= => ->.
Qed.

Lemma init_stateP (g : rng) (st0 : state) :
  init_state' g = Some st0 ->
  [/\ (0 < nobj)%N,
      [/\ size (objects_u st0) = nobj, size (objects_v st0) = nobj
        & size (objects_logl st0) = nobj],
      [/\ logwidth st0 = ln (1 - exp (- 1 / INR nobj)), loglcalls st0 = nobj,
          samples_logwt st0 = [::], ndecl st0 = 0 & logwt_old st0 = None]
    & trace st0
      = flatten [seq [:: CallPrior u; CallLoglikelihood (prior u)]
                | u <- objects_u st0]].
Proof.
rewrite /init_state; have := size_np_random_random nobj g.
case: np_random_random => us g1 /= Hsz.
case: nobj Hsz => [|n] // Hsz [<-] /=.
by rewrite !size_map Hsz.
Qed.

(** The point a pass writes at the index of the worst one. *)
Lemma iteration_accepts (it : nat) (st st1 : state) (stop : bool)
    (worst : nat) :
  iteration' it st = Some (st1, stop) ->
  np_argmin (objects_logl st) = Some worst ->
  exists u,
    [/\ ~~ outside_cube u,
        (nth 0 (objects_logl st) worst < loglikelihood (prior u))%Re,
        assign (objects_u st) worst u = Some (objects_u st1),
        assign (objects_v st) worst (prior u) = Some (objects_v st1)
      & assign (objects_logl st) worst (loglikelihood (prior u))
          = Some (objects_logl st1)].
Proof.
case/iterationP => w [u [v [logl /= [-> Hrep [Hu Hv Hl] _ _]]]] [<-].
case/replace_loopP: Hrep => added [_ [Ev El Hlt Hin] _ _].
by exists u; rewrite -Ev -El.
Qed.

(** C5: in every pass of the main loop the point written at the index
    of the eliminated worst point has a log-likelihood strictly above the
    one of the point it replaces; the stored value is the log-likelihood
    of the stored parameters, which are the prior transform of the stored
    cube position. *)
Theorem replacement_beats_worst (it : nat) (st st1 : state) (stop : bool)
    (worst : nat) :
  iteration' it st = Some (st1, stop) ->
  np_argmin (objects_logl st) = Some worst ->
  [/\ (nth 0 (objects_logl st) worst < nth 0 (objects_logl st1) worst)%Re,
      nth 0 (objects_logl st1) worst
        = loglikelihood (nth 0 (objects_v st1) worst)
    & nth 0 (objects_v st1) worst = prior (nth 0 (objects_u st1) worst)].
Proof.
move=> Hit Hw; have [u [_ Hlt Hu Hv Hl]] := iteration_accepts Hit Hw.
have [_ _ -> _] := assignP 0 Hu.
have [_ _ -> _] := assignP 0 Hv.
have [_ _ -> _] := assignP 0%Re Hl.
by split.
Qed.

(** C9: a pass of the main loop writes the three parallel arrays at one
    index, the index of the least log-likelihood, with one new point;
    every other entry is unchanged and the three arrays keep their size,
    which is [nobj] in every state a run reaches. *)
Theorem live_set_frame (g : rng) (k it : nat) (st0 st st1 : state)
    (last : option nat) (stopped stop : bool) (worst : nat) :
  init_state' g = Some st0 ->
  main_loop' k 0 None st0 = Some (st, last, stopped) ->
  iteration' it st = Some (st1, stop) ->
  np_argmin (objects_logl st) = Some worst ->
  [/\ (worst < nobj)%N /\
      (forall j, (j < nobj)%N ->
         (nth 0 (objects_logl st) worst <= nth 0 (objects_logl st) j)%Re),
      [/\ size (objects_u st) = nobj, size (objects_v st) = nobj
        & size (objects_logl st) = nobj],
      [/\ size (objects_u st1) = nobj, size (objects_v st1) = nobj
        & size (objects_logl st1) = nobj],
      (forall j : nat, j != worst ->
         [/\ nth 0 (objects_u st1) j = nth 0 (objects_u st) j,
             nth 0 (objects_v st1) j = nth 0 (objects_v st) j
           & nth 0 (objects_logl st1) j = nth 0 (objects_logl st) j])
    & exists u,
        [/\ objects_u st1 = set_nth u (objects_u st) worst u,
            objects_v st1 = set_nth (prior u) (objects_v st) worst (prior u),
            objects_logl st1
              = set_nth (loglikelihood (prior u)) (objects_logl st) worst
                  (loglikelihood (prior u))
          & nth 0 (objects_logl st1) worst <> nth 0 (objects_logl st) worst]].
Proof.
move=> Hinit Hloop Hit Hw.
have [_ [Su0 Sv0 Sl0] _ _] := init_stateP Hinit.
pose P (_ : nat) (s : state) :=
  [/\ size (objects_u s) = nobj, size (objects_v s) = nobj
    & size (objects_logl s) = nobj].
have Hstep i s s1 b : P i s -> iteration' i s = Some (s1, b) -> P i.+1 s1.
  rewrite /P.
  case=> Su Sv Sl /iterationP [w [u [v [logl /= [_ _ [Hu Hv Hl] _ _]]]]].
  have [_ -> _ _] := assignP 0 Hu; have [_ -> _ _] := assignP 0 Hv.
  by have [_ -> _ _] := assignP 0%Re Hl.
have [Su Sv Sl] : P (passes last) st.
  exact: (main_loopP Hstep (n := k) (it := 0) (last := None) _ _ Hloop).
have [Su1 Sv1 Sl1] : P it.+1 st1 by apply: Hstep Hit.
have [Hlt Hmin] := np_argminP Hw.
have [u [_ Hbeat Hu Hv Hl]] := iteration_accepts Hit Hw.
split=> //.
- by rewrite -Sl.
- move=> j Hj; split.
  + by have [_ _ _] := assignP 0 Hu; apply.
  + by have [_ _ _] := assignP 0 Hv; apply.
  + by have [_ _ _] := assignP 0%Re Hl; apply.
- exists u; have [_ _ Enth _] := assignP 0%Re Hl.
  move: Hu Hv Hl; rewrite /assign Su Sv Sl -{1 2 3}Sl Hlt.
  move=> [Eu] [Ev] [El]; split=> //.
  by rewrite Enth => E; rewrite E in Hbeat; apply: (Rlt_irrefl _ Hbeat).
Qed.

(** C7: for [nobj >= 1], [logwidth] starts at [log(1 - e^(-1/nobj))],
    every pass of the main loop lowers it by exactly [1/nobj], and after
    [i] passes it is [log(1 - e^(-1/nobj)) - i/nobj]. *)
Theorem logwidth_after_passes (g : rng) (k : nat) (st0 st : state)
    (last : option nat) (stopped : bool) :
  (1 <= nobj)%N ->
  init_state' g = Some st0 ->
  main_loop' k 0 None st0 = Some (st, last, stopped) ->
  [/\ logwidth st0 = ln (1 - exp (- 1 / INR nobj)),
      logwidth st
        = (ln (1 - exp (- 1 / INR nobj)) - INR (passes last) / INR nobj)%Re
    & forall it st1 stop,
        iteration' it st = Some (st1, stop) ->
        logwidth st1 = (logwidth st - 1 / INR nobj)%Re].
Proof.
move=> Hn Hinit Hloop.
have [_ _ [E0 _ _ _ _] _] := init_stateP Hinit.
have Hn0 : INR nobj <> 0%Re by apply: not_0_INR; case: nobj Hn.
have Hstep it s s1 b :
  iteration' it s = Some (s1, b) ->
  logwidth s1 = (logwidth s - 1 / INR nobj)%Re.
  by case/iterationP => w [u [v [logl /= [_ _ _ _ [-> _ _ _]]]]].
split=> //; last by move=> it st1 stop; apply: Hstep.
pose P (i : nat) (s : state) :=
  logwidth s = (logwidth st0 - INR i / INR nobj)%Re.
rewrite -E0.
apply: (main_loopP (P := P) _ (n := k) (it := 0) (last := None) _ _ Hloop) => //.
  move=> it s s1 b; rewrite /P => Hs /Hstep ->.
  by rewrite Hs S_INR; field.
by rewrite /P /=; field.
Qed.

Lemma finalize_stepsP (l : seq nat) (st : state) :
  let st1 := foldl (finalize_step (npar := npar)) st l in
  [/\ trace st1 = trace st, loglcalls st1 = loglcalls st,
      objects_logl st1 = objects_logl st, objects_v st1 = objects_v st
    & logwidth st1 = logwidth st].
Proof. by elim: l st => [|i l IH] st //=; case: (IH (finalize_step st i)). Qed.

Lemma init_traceP (us : seq 'rV[R]_npar) :
  let tr := flatten [seq [:: CallPrior u; CallLoglikelihood (prior u)]
                    | u <- us] in
  [/\ size tr = (2 * size us)%N, count is_loglike tr = size us,
      count is_candidate tr = 0 & count is_discarded tr = 0].
Proof.
elim: us => [|u us /= [E1 E2 E3 E4]] //=.
by rewrite E1 E2 E3 E4 mulnS.
Qed.

(** The calls counted by a run: what the main loop adds to the trace. *)
Lemma main_loop_calls (k : nat) (st0 st : state) (last : option nat)
    (stopped : bool) :
  main_loop' k 0 None st0 = Some (st, last, stopped) ->
  exists added : seq event,
    [/\ trace st = trace st0 ++ added,
        loglcalls st = (loglcalls st0 + count is_loglike added)%N,
        count is_candidate added
          = (count is_discarded added + count is_loglike added)%N,
        (passes last <= count is_loglike added)%N
      & all (prior_arg_ok (fun u => ~~ outside_cube u)) added].
Proof.
pose P (i : nat) (s : state) := exists added : seq event,
  [/\ trace s = trace st0 ++ added,
      loglcalls s = (loglcalls st0 + count is_loglike added)%N,
      count is_candidate added
        = (count is_discarded added + count is_loglike added)%N,
      (i <= count is_loglike added)%N
    & all (prior_arg_ok (fun u => ~~ outside_cube u)) added].
apply: (main_loopP (P := P) _ (n := k) (it := 0) (last := None)) => //.
  move=> it s s1 b [added [Etr Ecalls Ecand Hle Hall]].
  case/iterationP => w [u [v [logl /= [_ Hrep _ _ _]]]].
  case/replace_loopP: Hrep => more [Etr1 _ [Ecalls1 Ecand1 Hpos] Hall1].
  exists (added ++ more); split.
  - by rewrite Etr1 Etr catA.
  - by rewrite Ecalls1 Ecalls count_cat addnA.
  - by rewrite !count_cat Ecand Ecand1 addnACA.
  - by rewrite count_cat -addn1; apply: leq_add.
  - by rewrite all_cat Hall.
by exists [::]; rewrite /= cats0 addn0.
Qed.

(** C10: the [ncalls] entry of the result is [nobj], the evaluations of
    the initial live points, plus one for every evaluation of the
    log-likelihood made by the replacement loops; every candidate is
    either discarded by the unit-cube test or evaluated once, so the
    discarded ones add nothing; and a completed run has
    [ncalls >= nobj + niter]. *)
Theorem ncalls_counts_evaluations (maxiter : nat) (g : rng)
    (res : result npar) (tr : seq event) :
  nest' maxiter g = Some (res, tr) ->
  [/\ res_ncalls res = (nobj + count is_loglike (drop (2 * nobj) tr))%N,
      count is_loglike (take (2 * nobj) tr) = nobj /\
      count is_candidate (take (2 * nobj) tr) = 0,
      count is_candidate tr
        = (count is_discarded tr + count is_loglike (drop (2 * nobj) tr))%N
    & (nobj + res_niter res <= res_ncalls res)%N].
Proof.
rewrite /nest; case Hinit: init_state => [st0|] //.
case Hloop: main_loop => [[[st1 last] stopped]|] //.
case Hres: make_result => [r|] // [<- <-].
have [_ [Su _ _] [_ Ecalls0 _ _ _] Etr0] := init_stateP Hinit.
have [added [Etr Ecalls Ecand Hle _]] := main_loop_calls Hloop.
have [Esz El Ec Ed] := init_traceP (objects_u st0).
have [Efin Ecalls1 _ _ _] := finalize_stepsP (iota 0 nobj)
  {| objects_u := objects_u st1; objects_v := objects_v st1;
     objects_logl := objects_logl st1;
     samples_parvals := samples_parvals st1;
     samples_logwt := samples_logwt st1; h := h st1; logz := logz st1;
     logwidth := final_logwidth nobj (size (samples_parvals st1));
     loglcalls := loglcalls st1; ndecl := ndecl st1;
     logwt_old := logwt_old st1; gen := gen st1; trace := trace st1 |}.
rewrite /finalize Efin /= Etr.
move: Hres; rewrite /make_result; case: last Hloop Hle => [it|] // Hloop Hle.
case: ifP => // _; case: np_max => [lmax|] // [<-] /=.
rewrite /finalize Ecalls1 /= Ecalls Ecalls0.
have Esz0 : size (trace st0) = (2 * nobj)%N by rewrite Etr0 Esz Su.
rewrite drop_size_cat // take_size_cat // !count_cat.
rewrite Etr0 El Ec Ed Su add0n; split=> //.
by rewrite leq_add2l.
Qed.

(** ** The stopping rule *)

Lemma run_length_rcons (d : R -> R -> bool) (old : option R) (c : nat)
    (ws : seq R) (w : R) :
  run_length d old c (rcons ws w)
  = if (if foldl (fun _ x => Some x) old ws is Some o then d w o else false)
    then (run_length d old c ws).+1 else 0.
Proof. by elim: ws old c => [|a ws IH] old c //=. Qed.

Lemma stop_ruleP (c it : nat) :
  reflect ((10 < c)%N /\ (INR it / 6 < INR c)%Re) (stop_rule c it).
Proof.
rewrite /stop_rule ltn_divLR //.
apply: (iffP andP) => [[H10 Hit]|[H10 Hit]]; split=> //.
  have /ltP/lt_INR := Hit; rewrite -multE mult_INR /= => H.
  by lra.
apply/ltP/INR_lt; rewrite -multE mult_INR /=.
by lra.
Qed.

(** Induction along the main loop that tells the last pass apart. *)
Lemma main_loop_inv (P : nat -> state -> Prop) :
  (forall it st st1,
     P it st -> iteration' it st = Some (st1, false) -> P it.+1 st1) ->
  forall n it last st st1 last1 stopped,
    passes last = it -> P it st ->
    main_loop' n it last st = Some (st1, last1, stopped) ->
    if stopped then
      exists it1 st2,
        [/\ last1 = Some it1, P it1 st2
          & iteration' it1 st2 = Some (st1, true)]
    else P (passes last1) st1.
Proof.
move=> Hstep; elim=> [|n IH] it last st st1 last1 stopped Hlast HP /=.
  by case=> <- <- <-; rewrite Hlast.
case Hit: iteration => [[st2 stop]|] //.
case: stop Hit => Hit.
  by case=> <- <- <-; exists it, st.
by apply: IH => //; apply: Hstep Hit.
Qed.

(** C4, as the code has it: the main loop leaves by [break] at pass [j]
    exactly when the run-length counter - counting the consecutive passes
    whose weight [logwt] was strictly below the weight of the pass before,
    and reset to zero otherwise, also when the two weights are equal -
    exceeds both 10 and [j/6] after pass [j]. *)
Theorem stops_when_strict_decline_run : stops_exactly_when' strictly_below.
Proof.
move=> g maxiter st0 st last stopped Hinit Hloop.
have [_ _ [_ _ Ews0 End0 Eold0] _] := init_stateP Hinit.
pose P (i : nat) (s : state) :=
  [/\ size (samples_logwt s) = i,
      ndecl s = run_length strictly_below None 0 (samples_logwt s),
      logwt_old s = foldl (fun _ x => Some x) None (samples_logwt s)
    & forall j, (j < i)%N -> ~ rule_at strictly_below (samples_logwt s) j].
have Hpass i s s1 b :
  P i s -> iteration' i s = Some (s1, b) ->
  [/\ size (samples_logwt s1) = i.+1,
      ndecl s1 = run_length strictly_below None 0 (samples_logwt s1),
      forall j, (j < i)%N -> ~ rule_at strictly_below (samples_logwt s1) j,
      b <-> rule_at strictly_below (samples_logwt s1) i
    & b = false ->
      logwt_old s1 = foldl (fun _ x => Some x) None (samples_logwt s1)].
  case=> Esz End Eold Hno.
  case/iterationP => w [u [v [logl /= [_ _ _ [_ Ews _ _] [_ End1 Eb Eold1]]]]].
  have Esz1 : size (samples_logwt s1) = i.+1 by rewrite Ews size_rcons Esz.
  have End2 : ndecl s1 = run_length strictly_below None 0 (samples_logwt s1).
    by rewrite End1 Ews run_length_rcons -Eold -End.
  split=> //.
  - move=> j Hj; rewrite /rule_at Ews -cats1 takel_cat ?Esz //.
    exact: Hno.
  - rewrite /rule_at take_oversize ?Esz1 // -End2 Eb.
    by split=> [/stop_ruleP|/stop_ruleP].
  - move=> Eb0; rewrite Eold1 Eb0 Ews.
    by rewrite -cats1 foldl_cat.
have Hstep i s s1 : P i s -> iteration' i s = Some (s1, false) -> P i.+1 s1.
  move=> HP Hit; have [Esz End Hno Hb Eold] := Hpass _ _ _ _ HP Hit.
  split=> // [|j]; first exact: Eold.
  rewrite ltnS leq_eqVlt; case/orP => [/eqP ->|]; last exact: Hno.
  by move/Hb.
have HP0 : P 0 st0 by split=> //; rewrite ?Ews0.
have := main_loop_inv Hstep (n := maxiter) (it := 0) (last := None) _ HP0 Hloop.
case: stopped Hloop => Hloop.
  case=> // it1 [st2 [-> HP2 Hit2]] j /=.
  have [_ _ Hno Hb _] := Hpass _ _ _ _ HP2 Hit2.
  rewrite ltnS leq_eqVlt; case/orP => [/eqP ->|Hj].
    by split=> // _; apply/Hb.
  split; first by move/(Hno _ Hj).
  by case=> _ [E]; move: Hj; rewrite E ltnn.
case=> // _ _ _ Hno j Hj; split; first by move/(Hno _ Hj).
by case.
Qed.

(** ** The cube test and the arguments of [prior] *)

Lemma outside_cubeP (u : 'rV[R]_npar) :
  reflect (forall j, (0 <= u ord0 j <= 1)%Re) (~~ outside_cube u).
Proof.
rewrite /outside_cube negb_or !negb_exists.
apply: (iffP andP) => [[/forallP H0 /forallP H1] j|H].
  by split; apply: RltbF; apply: negbTE.
by split; apply/forallP => j; apply/RltbP; case: (H j) => ? ?; lra.
Qed.




(** ** The FINALIZE step *)

Lemma finalize_step_logwt (st : state) (l : seq nat) :
  samples_logwt (foldl (finalize_step (npar := npar)) st l)
  = samples_logwt st
    ++ [seq (logwidth st + nth 0 (objects_logl st) i)%Re | i <- l].
Proof.
elim: l st => [|i l IH] st /=; first by rewrite cats0.
by rewrite IH /= -cats1 -catA.
Qed.

(** The weights that FINALIZE records for the live points: the log
    width of line 387 plus the log-likelihood of each point. *)
Lemma finalize_logwt (st : state) :
  size (objects_logl st) = nobj ->
  samples_logwt (finalize nobj st)
  = samples_logwt st
    ++ [seq (final_logwidth nobj (size (samples_parvals st)) + logl)%Re
       | logl <- objects_logl st].
Proof.
move=> Hsz; rewrite /finalize finalize_step_logwt /=; congr (_ ++ _).
rewrite -Hsz; apply: (@eq_from_nth _ 0%Re); rewrite !size_map ?size_iota //.
move=> i Hi; rewrite (nth_map 0%N) ?size_iota // nth_iota // add0n.
by rewrite (nth_map 0%Re).
Qed.

(** X15: the log width of line 387 is the exact [-niter/nobj - log(nobj)]
    when [nobj] divides [niter], and lies strictly below it otherwise. *)
Lemma final_logwidth_floor (n : nat) :
  (0 < nobj)%N ->
  if (nobj %| n)%N then
    final_logwidth nobj n = (- INR n / INR nobj - ln (INR nobj))%Re
  else
    (final_logwidth nobj n < - INR n / INR nobj - ln (INR nobj))%Re.
Proof.
move=> Hn; rewrite /final_logwidth.
have Hz : (0 < Z.of_nat nobj)%Z by apply/(Nat2Z.inj_lt 0)/ltP.
have Hr : (0 < INR nobj)%Re by apply/lt_0_INR/ltP.
set q := (- Z.of_nat n / Z.of_nat nobj)%Z.
have Hdm := Z.div_mod (- Z.of_nat n) (Z.of_nat nobj).
have Hmod := Z.mod_pos_bound (- Z.of_nat n) (Z.of_nat nobj) Hz.
set r := (- Z.of_nat n mod Z.of_nat nobj)%Z in Hdm Hmod.
have E : (- INR n = INR nobj * IZR q + IZR r)%Re.
  rewrite !INR_IZR_INZ -opp_IZR -mult_IZR -plus_IZR; congr IZR.
  by rewrite -/q in Hdm; lia.
have Hr0 : (0 <= IZR r)%Re by apply: IZR_le; lia.
case: ifP => Hdvd.
  have Er : r = 0%Z.
    move/dvdnP: Hdvd => [m Em]; rewrite /r Em -multE Nat2Z.inj_mul.
    by rewrite -Z.mul_opp_l Z.mod_mul //; lia.
  have -> : IZR q = (- INR n / INR nobj)%Re by rewrite E Er /=; field; lra.
  by [].
have Hr1 : (0 < IZR r)%Re.
  apply: IZR_lt; suff : r <> 0%Z by lia.
  move=> Er; move/negP: Hdvd; apply; apply/dvdnP.
  exists (Z.to_nat (- q)); apply: Nat2Z.inj; rewrite -multE Nat2Z.inj_mul.
  by rewrite Z2Nat.id; rewrite -/q Er in Hdm; nia.
apply: Rplus_lt_compat_r; rewrite E.
apply: (Rmult_lt_reg_l (INR nobj)) => //.
by field_simplify; lra.
Qed.

End NestFacts.

(** ** Ring notations against Stdlib's operations *)

Lemma RplusE (x y : R) : Rplus x y = x + y. Proof. by []. Qed.
Lemma RmultE (x y : R) : Rmult x y = x * y. Proof. by []. Qed.
Lemma RoppE (x : R) : Ropp x = - x. Proof. by []. Qed.
Lemma RinvE (x : R) : Rinv x = x^-1. Proof. by []. Qed.

Lemma sum_nonneg (I : Type) (r : seq I) (F : I -> R) :
  (forall i, (0 <= F i)%Re) -> (0 <= \sum_(i <- r) F i)%Re.
Proof.
move=> HF; elim: r => [|i r IH]; first by rewrite big_nil; apply: Rle_refl.
by rewrite big_cons -RplusE; apply: Rplus_le_le_0_compat.
Qed.

(** ** The ellipsoid sampler *)

Lemma float_pow_unit (r y : R) :
  (0 <= r < 1)%Re -> (0 < y)%Re -> (0 <= float_pow r y <= 1)%Re.
Proof.
move=> [Hr0 Hr1] Hy; rewrite /float_pow; case: eqP => [_|/eqP Hr]; first by lra.
have Hr2 : (0 < r)%Re by case: Hr0 => // E; rewrite -E eqxx in Hr.
rewrite /Rpower; split; first exact/Rlt_le/exp_pos.
rewrite -exp_0; apply/Rlt_le/exp_increasing.
have := ln_increasing _ _ Hr2 Hr1; rewrite ln_1 => Hln.
by nra.
Qed.

Section EllipsoidSampler.

Variable rng : Type.
Variable rand : rng -> R * rng.
Variable randn : rng -> R * rng.
Variable eig : forall n : nat, 'M[R]_n -> 'rV[R]_n * 'M[R]_n.

Hypothesis rand_range : forall g, (0 <= (rand g).1 < 1)%Re.
Hypothesis randn_nonzero : forall g, (randn g).1 <> 0%Re.

Local Notation randsphere' := (randsphere rand randn).
Local Notation sample_ellipsoid' := (sample_ellipsoid rand randn eig).
Local Notation sample_rows' := (sample_rows rand randn).

(** [randsphere] returns a point of the unit ball. *)
Lemma randsphere_in_ball (n : nat) (g g1 : rng) (s : 'rV[R]_n) :
  randsphere' n g = Some (s, g1) -> (sqnorm s <= 1)%Re.
Proof.
rewrite /randsphere /np_random_randn.
case: n s => [|n] s; first by case: draws.
have := @randn_nonzero g; rewrite [draws _ _ _]/=.
case: (randn g) => a g2; rewrite [(a, g2).1]/= => Ha.
case: draws => zs g3; have := rand_range g3.
case: (rand g3) => r g4; rewrite [(r, g4).1]/= => Hr.
set z := vec_of_seq n.+1 (a :: zs); set c := float_pow _ _; set d := sqrt _.
case=> <- _.
have Hc : (0 <= c <= 1)%Re.
  apply: float_pow_unit => //; apply: Rdiv_lt_0_compat; first by lra.
  by apply: lt_0_INR; apply/ltP.
have Hsum : (0 < \sum_k (z ord0 k ^ 2)%Re)%Re.
  rewrite big_ord_recl -RplusE !mxE [nth _ _ _]/=.
  apply: Rplus_lt_le_0_compat; first by nra.
  by apply: sum_nonneg => i; apply: pow2_ge_0.
have Hd : (0 < d)%Re by apply: sqrt_lt_R0.
have Hdd : (d * d = \sum_k (z ord0 k ^ 2)%Re)%Re by apply/sqrt_sqrt/Rlt_le.
have -> : sqnorm (\row_j (z ord0 j * c / d)%Re)
          = ((c / d) ^ 2 * \sum_k (z ord0 k ^ 2)%Re)%Re.
  rewrite /sqnorm mxE RmultE mulr_sumr; apply: eq_bigr => j _.
  by rewrite !mxE -!RmultE; field; lra.
by rewrite -Hdd; field_simplify; nra.
Qed.

(** The affine map of [sample_ellipsoid] sends the unit ball into the
    ellipsoid: with [shape = v diag(w) v^T], [w >= 0] and [shape_inv] an
    inverse of [shape], the image [x - center = T s] of a vector [s]
    has the quadratic form [|s|^2]. *)
Lemma ellipsoid_map (n : nat) (shape shape_inv : 'M[R]_n) (s : 'rV[R]_n) :
  shape = (eig shape).2 *m diag_mx (eig shape).1 *m ((eig shape).2)^T ->
  (forall j, (0 <= (eig shape).1 ord0 j)%Re) ->
  shape *m shape_inv = 1%:M ->
  let vs := scaled_eigenvectors eig shape in
  quad_form (s *m vs^T) shape_inv (s *m vs^T) = sqnorm s.
Proof.
rewrite /scaled_eigenvectors; case: (eig shape) => w v /= Hdec Hw Hinv.
set T := v *m diag_mx (map_mx sqrt w).
have HT : T *m T^T = shape.
  rewrite /T trmx_mul tr_diag_mx mulmxA -(mulmxA v) mulmx_diag [RHS]Hdec.
  congr (_ *m diag_mx _ *m _); apply/rowP => j; rewrite !mxE -RmultE.
  exact: sqrt_sqrt.
have HI : T^T *m shape_inv *m T = 1%:M.
  by rewrite -mulmxA; apply: mulmx1C; rewrite -mulmxA HT; apply: mulmx1C.
rewrite /quad_form /sqnorm trmx_mul trmxK.
by rewrite mulmxA -2!(mulmxA s) HI mulmx1.
Qed.

Lemma sample_rows_inside (n : nat) (shape shape_inv : 'M[R]_n)
    (center : 'rV[R]_n) (k : nat) (g g1 : rng) (xs : seq 'rV[R]_n) :
  shape = (eig shape).2 *m diag_mx (eig shape).1 *m ((eig shape).2)^T ->
  (forall j, (0 <= (eig shape).1 ord0 j)%Re) ->
  shape *m shape_inv = 1%:M ->
  sample_rows' (scaled_eigenvectors eig shape) center k g = Some (xs, g1) ->
  forall x, x \in xs ->
    (quad_form (x - center) shape_inv (x - center) <= 1)%Re.
Proof.
move=> Hdec Hw Hinv; elim: k g g1 xs => [|k IH] g g1 xs /=.
  by case=> <-.
case Hs: randsphere => [[s g2]|] //.
case Hr: sample_rows => [[ys g3]|] // [<- _] x.
rewrite inE; case/orP => [/eqP ->|]; last exact: IH Hr x.
by rewrite addrK ellipsoid_map //; apply: randsphere_in_ball Hs.
Qed.

(** C8: for a shape matrix with the eigendecomposition
    [shape = V diag(w) V^T] returned by [eig], non-negative eigenvalues
    (symmetric positive semi-definite) and an inverse [shape_inv], every
    point [x] returned by [sample_ellipsoid] - the image of a unit-ball
    sample under [T = V sqrt(diag w)], shifted by the center - satisfies
    [(x - center)^T shape_inv (x - center) <= 1]. *)
Theorem sample_ellipsoid_inside (n : nat) (shape shape_inv : 'M[R]_n)
    (center : 'rV[R]_n) (nsamples : nat) (g g1 : rng)
    (res : 'rV[R]_n + seq 'rV[R]_n) :
  shape = (eig shape).2 *m diag_mx (eig shape).1 *m ((eig shape).2)^T ->
  (forall j, (0 <= (eig shape).1 ord0 j)%Re) ->
  shape *m shape_inv = 1%:M ->
  sample_ellipsoid' shape center nsamples g = Some (res, g1) ->
  forall x, x \in points_of res ->
    (quad_form (x - center) shape_inv (x - center) <= 1)%Re.
Proof.
move=> Hdec Hw Hinv; rewrite /sample_ellipsoid.
case: ifP => _.
  case Hs: randsphere => [[s g2]|] // [<- _] x; rewrite inE => /eqP ->.
  by rewrite addrK ellipsoid_map //; apply: randsphere_in_ball Hs.
case Hr: sample_rows => [[xs g2]|] // [<- _] x /=.
exact: sample_rows_inside Hr x.
Qed.

End EllipsoidSampler.

(** ** Volumes and the volume floor *)

Lemma volume_loop_scale (fuel i ndim : nat) (a vol : R) :
  volume_loop fuel i ndim (a * vol)%Re = (a * volume_loop fuel i ndim vol)%Re.
Proof.
elim: fuel i vol => [|fuel IH] i vol //=.
by case: ifP => // _; rewrite -IH Rmult_assoc.
Qed.

Lemma volume_loop_pos (fuel i ndim : nat) (vol : R) :
  (0 < i)%N -> (0 < vol)%Re -> (0 < volume_loop fuel i ndim vol)%Re.
Proof.
elim: fuel i vol => [|fuel IH] i vol Hi Hvol //=.
case: ifP => // _; apply: IH; first by rewrite addn2.
apply: Rmult_lt_0_compat => //; apply: Rmult_lt_0_compat; last exact: PI_RGT_0.
by apply: Rdiv_lt_0_compat; [lra | apply: lt_0_INR; apply/ltP].
Qed.

(** The fuel of [volume_loop] is enough: the loop is left because
    [i] has passed [ndim], and more fuel changes nothing. *)
Lemma volume_loop_fuel (fuel k i ndim : nat) (vol : R) :
  (ndim < i + 2 * fuel)%N ->
  volume_loop (fuel + k) i ndim vol = volume_loop fuel i ndim vol.
Proof.
elim: fuel i vol => [|fuel IH] i vol /=.
  by rewrite muln0 addn0 add0n => H; case: k => //= k; rewrite leqNgt H.
move=> H; case: ifP => // _; apply: IH.
by rewrite -addnA -mulnS.
Qed.

Lemma ellipsoid_volume_fuel (np_det : forall n : nat, 'M[R]_n -> R)
    (n k : nat) (scaled_cov : 'M[R]_n) :
  (if n %% 2 == 0 then volume_loop (n + k) 2 n (sqrt (np_det n scaled_cov))
   else volume_loop (n + k) 3 n (sqrt (np_det n scaled_cov) * 2)%Re)
  = ellipsoid_volume np_det scaled_cov.
Proof.
rewrite /ellipsoid_volume; case: ifP => _; apply: volume_loop_fuel.
  by apply/ltP; rewrite -plusE -multE; lia.
by apply/ltP; rewrite -plusE -multE; lia.
Qed.

Lemma unit_ball_volume_pos (n : nat) : (0 < unit_ball_volume n)%Re.
Proof.
by rewrite /unit_ball_volume; case: ifP => _; apply: volume_loop_pos => //; lra.
Qed.

Lemma ellipsoid_volumeE (np_det : forall n : nat, 'M[R]_n -> R) (n : nat)
    (shape : 'M[R]_n) :
  ellipsoid_volume np_det shape
  = (sqrt (np_det n shape) * unit_ball_volume n)%Re.
Proof.
rewrite /ellipsoid_volume /unit_ball_volume; case: ifP => _.
  by rewrite -volume_loop_scale Rmult_1_r.
by rewrite -volume_loop_scale Rmult_1_l.
Qed.

(** With a function for [np.det] that is homogeneous of degree [n], as
    the determinant is, scaling the shape by [c] scales the volume by
    [sqrt (c^n)], not by [c^n]. *)
Lemma ellipsoid_volume_scale (np_det : forall n : nat, 'M[R]_n -> R)
    (n : nat) (c : R) (shape : 'M[R]_n) :
  (0 <= c)%Re ->
  np_det n (c *: shape) = (c ^ n * np_det n shape)%Re ->
  ellipsoid_volume np_det (c *: shape)
  = (sqrt (c ^ n) * ellipsoid_volume np_det shape)%Re.
Proof.
move=> Hc Hdet; rewrite !ellipsoid_volumeE Hdet.
by rewrite sqrt_mult_alt ?Rmult_assoc //; apply: pow_le.
Qed.

(** The factor of line 171 brings a volume [vol] below the floor
    [min_vol] to [sqrt (min_vol * vol)], which is still below the
    floor. *)
Lemma enlarged_volume (np_det : forall n : nat, 'M[R]_n -> R) (n : nat)
    (shape : 'M[R]_n) (min_vol c : R) :
  let vol := ellipsoid_volume np_det shape in
  (0 < vol < min_vol)%Re ->
  enlargement_factor n min_vol vol = Some c ->
  np_det n (c *: shape) = (c ^ n * np_det n shape)%Re ->
  ellipsoid_volume np_det (c *: shape) = sqrt (min_vol * vol) /\
  (ellipsoid_volume np_det (c *: shape) < min_vol)%Re.
Proof.
move=> vol [Hvol Hlt]; rewrite /enlargement_factor.
case: n shape @vol Hvol Hlt => [|n] shape vol Hvol Hlt // [Ec0] Hdet.
have Hq : (0 < min_vol / vol)%Re by apply: Rdiv_lt_0_compat; lra.
have Hn0 : (0 < INR n.+1)%Re by apply: lt_0_INR; apply/ltP.
have Ec : c = Rpower (min_vol / vol) (1 / INR n.+1).
  by rewrite -Ec0 /float_pow; case: eqP => // E; rewrite E in Hq; lra.
have Hc : (0 < c)%Re by rewrite Ec; apply: exp_pos.
have Ecn : (c ^ n.+1 = min_vol / vol)%Re.
  rewrite -Rpower_pow // Ec Rpower_mult.
  have -> : (1 / INR n.+1 * INR n.+1 = 1)%Re by field; lra.
  by rewrite Rpower_1.
have E : ellipsoid_volume np_det (c *: shape) = sqrt (min_vol * vol).
  have Hc0 : (0 <= c)%Re by lra.
  have Hv0 : (0 <= vol)%Re by lra.
  have Hq0 : (0 <= min_vol / vol)%Re by lra.
  rewrite (ellipsoid_volume_scale Hc0 Hdet) Ecn -/vol.
  rewrite -{2}(sqrt_square _ Hv0) -(sqrt_mult_alt _ _ Hq0).
  by congr sqrt; field; lra.
have Hm0 : (0 <= min_vol)%Re by lra.
split=> //; rewrite E -{2}(sqrt_square _ Hm0).
by apply: sqrt_lt_1_alt; nra.
Qed.

(** ** The ellipsoid fit *)

Section FitFacts.

Variable inv_singular : forall n : nat, 'M[R]_n -> option 'M[R]_n.

Local Notation np_linalg_inv' := (np_linalg_inv inv_singular).
Local Notation bounding_ellipsoid' := (bounding_ellipsoid inv_singular).
Local Notation mahalanobis_factors' := (mahalanobis_factors inv_singular).

(** The fit in terms of the Mahalanobis factors: the shape is the
    covariance times the square root of the largest factor. *)
Lemma bounding_ellipsoidE (n : nat) (x : seq 'rV[R]_n) :
  bounding_ellipsoid' x
  = if mahalanobis_factors' x is Some factors then
      if np_max factors is Some fmax then
        Some (sqrt fmax *: np_cov [seq r - np_mean x | r <- x], np_mean x)
      else None
    else None.
Proof.
rewrite /bounding_ellipsoid /mahalanobis_factors; case: ifP => // _.
by case: np_linalg_inv.
Qed.

(** The quadratic form of the fitted ellipsoid at the input points, for
    points with an invertible covariance: the factor [d_i] divided by the
    square root of the largest factor. *)
Lemma fit_quadratic_form (n : nat) (x : seq 'rV[R]_n) (shape : 'M[R]_n)
    (center : 'rV[R]_n) (ds : seq R) (dmax : R) :
  np_cov [seq r - np_mean x | r <- x] \in unitmx ->
  bounding_ellipsoid' x = Some (shape, center) ->
  mahalanobis_factors' x = Some ds ->
  np_max ds = Some dmax ->
  (0 < dmax)%Re ->
  exists shape_inv,
    np_linalg_inv' shape = Some shape_inv /\
    forall i, (i < size x)%N ->
      quad_form (nth 0 x i - center) shape_inv (nth 0 x i - center)
      = (nth 0 ds i / sqrt dmax)%Re.
Proof.
move=> HC; rewrite bounding_ellipsoidE => Hfit Hds Hmax Hd.
move: Hfit; rewrite Hds Hmax => -[<- <-].
move: Hds HC; rewrite /mahalanobis_factors /np_linalg_inv; set C := np_cov _.
case: ifP => // _ + HC; rewrite HC => -[<-].
have Hf : (0 < sqrt dmax)%Re by apply: sqrt_lt_R0.
have Hu : sqrt dmax \is a GRing.unit.
  by rewrite unitfE; apply/eqP => E; move: Hf; rewrite E => /Rlt_irrefl.
have HfC : sqrt dmax *: C \in unitmx by rewrite unitmxZ.
exists (invmx (sqrt dmax *: C)); rewrite HfC; split=> // i Hi.
have -> : nth 0%Re [seq quad_form r (invmx C) r
                     | r <- [seq r - np_mean x | r <- x]] i
          = quad_form (nth 0 x i - np_mean x) (invmx C) (nth 0 x i - np_mean x).
  by rewrite (nth_map 0) ?size_map // (nth_map 0).
rewrite invmxZ // /quad_form -scalemxAr -scalemxAl mxE -RmultE -RinvE.
by rewrite Rmult_comm.
Qed.

End FitFacts.

(** ** The concrete random source *)

Module TapeFacts.

Import Tape.

Lemma clip_id (x : R) : (0 <= x < 1)%Re -> clip x = x.
Proof.
move=> [H0 H1]; rewrite /clip; case: Rle_dec => // _.
by case: Rlt_dec.
Qed.

Lemma nonzero_id (x : R) : x <> 0%Re -> nonzero x = x.
Proof. by rewrite /nonzero; case: eqP. Qed.

Lemma rand_range (g : rng) : (0 <= (rand g).1 < 1)%Re.
Proof.
rewrite /rand /clip /=; case: Rle_dec => H0; last by lra.
by case: Rlt_dec => H1; lra.
Qed.

Lemma randn_nonzero (g : rng) : (randn g).1 <> 0%Re.
Proof. by rewrite /randn /nonzero /=; case: eqP => // _; lra. Qed.

End TapeFacts.

(** ** The fit at four points of the plane *)

Module FitDemo.

Import FitInput.

Ltac mx2 :=
  apply/matrixP; case=> [[|[|?]] ?] //; case=> [[|[|?]] ?] //;
  rewrite !mxE ?big_ord_recl ?big_ord0 ?mxE /= ?mulr1n ?mulr0n;
  to_R; try ring.

Lemma vec2D a b c d : vec2 a b + vec2 c d = vec2 (a + c) (b + d).
Proof. by mx2. Qed.

Lemma vec2B a b c d : vec2 a b - vec2 c d = vec2 (a - c) (b - d).
Proof. by mx2. Qed.

Lemma vec2Z k a b : k *: vec2 a b = vec2 (k * a) (k * b).
Proof. by mx2. Qed.

Lemma vec2_0 : 0 = vec2 0 0.
Proof. by mx2. Qed.

Lemma outer2 a b c d :
  (vec2 a b)^T *m vec2 c d = mat2 (a * c) (a * d) (b * c) (b * d).
Proof. by mx2. Qed.

Lemma mat2D a b c d a' b' c' d' :
  mat2 a b c d + mat2 a' b' c' d' = mat2 (a + a') (b + b') (c + c') (d + d').
Proof. by mx2. Qed.

Lemma mat2Z k a b c d : k *: mat2 a b c d = mat2 (k * a) (k * b) (k * c) (k * d).
Proof. by mx2. Qed.

Lemma mat2_0 : 0 = mat2 0 0 0 0.
Proof. by mx2. Qed.

Lemma mat2_1 : 1%:M = mat2 1 0 0 1.
Proof. by mx2. Qed.

Lemma mat2M a b c d a' b' c' d' :
  mat2 a b c d *m mat2 a' b' c' d'
  = mat2 (a * a' + b * c') (a * b' + b * d') (c * a' + d * c') (c * b' + d * d').
Proof. by mx2. Qed.

Lemma quad2 a b p q r s c d :
  quad_form (vec2 a b) (mat2 p q r s) (vec2 c d)
  = ((a * p + b * r) * c + (a * q + b * s) * d)%Re.
Proof.
rewrite /quad_form !mxE !big_ord_recl !big_ord0 !mxE.
rewrite !big_ord_recl !big_ord0 !mxE /=; to_R; ring.
Qed.

Lemma det_diag2 a d : \det (mat2 a 0 0 d) = (a * d)%Re.
Proof.
have -> : mat2 a 0 0 d = diag_mx (vec2 a d) by mx2.
by rewrite det_diag !big_ord_recl big_ord0 !mxE /=; to_R; ring.
Qed.

Lemma unit_diag2 a d :
  a <> 0%Re -> d <> 0%Re -> mat2 a 0 0 d \in unitmx.
Proof.
move=> Ha Hd.
have HAB : mat2 a 0 0 d *m mat2 (/ a) 0 0 (/ d) = 1%:M.
  by rewrite mat2M mat2_1; congr mat2; field.
by have [] := mulmx1_unit HAB.
Qed.

Section Fit.

Variable inv_singular : forall n : nat, 'M[R]_n -> option 'M[R]_n.

Lemma inv_diag2 a d :
  a <> 0%Re -> d <> 0%Re ->
  np_linalg_inv inv_singular (mat2 a 0 0 d) = Some (mat2 (/ a) 0 0 (/ d)).
Proof.
move=> Ha Hd.
have HAB : mat2 a 0 0 d *m mat2 (/ a) 0 0 (/ d) = 1%:M.
  by rewrite mat2M mat2_1; congr mat2; field.
have HA := unit_diag2 Ha Hd.
rewrite /np_linalg_inv HA; congr Some.
by rewrite -[RHS]mul1mx -(mulVmx HA) -mulmxA HAB mulmx1.
Qed.


Lemma demo_mean : np_mean demo_x = vec2 1 1.
Proof.
rewrite /np_mean /demo_x !big_cons big_nil addr0 !vec2D vec2Z /=.
by congr vec2; field.
Qed.

Lemma demo_prime : [seq r - np_mean demo_x | r <- demo_x] = demo_x_prime.
Proof.
rewrite demo_mean /= !vec2B /demo_x_prime.
by congr [:: _; _; _; _]; congr vec2; ring.
Qed.

Lemma demo_cov : np_cov demo_x_prime = mat2 4 0 0 (2 / 3).
Proof.
have Em : np_mean demo_x_prime = vec2 0 0.
  rewrite /np_mean /demo_x_prime !big_cons big_nil addr0 !vec2D vec2Z /=.
  by congr vec2; field.
rewrite /np_cov Em /demo_x_prime !big_cons big_nil addr0 !vec2B !outer2.
by rewrite !mat2D mat2Z /=; congr mat2; field.
Qed.

Lemma demo_factors :
  mahalanobis_factors inv_singular demo_x = Some [:: 9 / 4; 7 / 4; 7 / 4; 1 / 4]%Re.
Proof.
rewrite /mahalanobis_factors demo_prime demo_cov inv_diag2; try lra.
rewrite /demo_x_prime /= !quad2.
by congr (Some [:: _; _; _; _]); field.
Qed.

Lemma demo_fit :
  bounding_ellipsoid inv_singular demo_x = Some (mat2 6 0 0 1, vec2 1 1).
Proof.
rewrite bounding_ellipsoidE demo_factors demo_prime demo_cov demo_mean /=.
have -> : Rmax (Rmax (Rmax (9 / 4) (7 / 4)) (7 / 4)) (1 / 4) = (9 / 4)%Re.
  by rewrite !Rmax_left; lra.
have -> : sqrt (9 / 4) = (3 / 2)%Re.
  have -> : (9 / 4 = (3 / 2) * (3 / 2))%Re by field.
  by apply: sqrt_square; lra.
by rewrite mat2Z; congr (Some (mat2 _ _ _ _, _)); field.
Qed.


(** C1: at the four points [demo_x] the fit succeeds, the largest
    Mahalanobis-squared distance is [9/4], and the returned shape is the
    covariance times [3/2], its square root, not times [9/4]; the point
    [(4, 1)], which attains the maximum, has the quadratic form [3/2]
    under the inverse of the returned shape, so it lies outside the
    returned ellipsoid. *)
Theorem fit_leaves_point_outside :
  exists shape center shape_inv,
    [/\ bounding_ellipsoid inv_singular demo_x = Some (shape, center),
        mahalanobis_factors inv_singular demo_x
        = Some [:: 9 / 4; 7 / 4; 7 / 4; 1 / 4]%Re,
        shape = (3 / 2)%Re *: np_cov [seq r - np_mean demo_x | r <- demo_x],
        np_linalg_inv inv_singular shape = Some shape_inv
      & quad_form (vec2 4 1 - center) shape_inv (vec2 4 1 - center)
        = (3 / 2)%Re].
Proof.
exists (mat2 6 0 0 1), (vec2 1 1), (mat2 (/ 6) 0 0 (/ 1)); split.
- exact: demo_fit.
- exact: demo_factors.
- by rewrite demo_prime demo_cov mat2Z; congr mat2; field.
- by apply: inv_diag2; lra.
- by rewrite vec2B quad2; field.
Qed.

(** The volume of the fitted shape of [demo_x], with the determinant for
    [np_det]: [sqrt 6 * pi], below [100]. *)
Lemma demo_volume : (0 < ellipsoid_volume det_mx (mat2 6 0 0 1) < 100)%Re.
Proof.
rewrite ellipsoid_volumeE /det_mx det_diag2.
have -> : unit_ball_volume 2 = PI.
  by rewrite /unit_ball_volume /=; field.
have H6 : (0 < sqrt (6 * 1) <= 3)%Re.
  split; first by apply: sqrt_lt_R0; lra.
  have H3 : (0 <= 3)%Re by lra.
  rewrite -(sqrt_square 3 H3).
  by apply: sqrt_le_1_alt; lra.
by have := PI_RGT_0; have := PI_4; nra.
Qed.

(** C3: for the four points [demo_x] and the floor [min_vol = 100], with
    the determinant for [np_det]: the fitted volume is below the floor,
    the factor of line 171 is [c = (min_vol/vol)^(1/ndim)], the volume
    of the shape scaled by [c], as [ellipsoid_volume] computes it, is
    still below [min_vol], and the head of [bounding_ellipsoids] fails at
    line 171, where the product is assigned into the pair, so that it
    returns no ellipsoid of volume [min_vol] or more. *)
Theorem enlargement_stays_below_floor :
  exists shape0 center c,
    [/\ bounding_ellipsoid inv_singular demo_x = Some (shape0, center),
        (ellipsoid_volume det_mx shape0 < 100)%Re,
        enlargement_factor 2 100 (ellipsoid_volume det_mx shape0) = Some c,
        (ellipsoid_volume det_mx (c *: shape0) < 100)%Re
      & bounding_ellipsoids_head inv_singular det_mx demo_x 100 None None
        = None].
Proof.
have Hvol := demo_volume.
exists (mat2 6 0 0 1), (vec2 1 1),
  (float_pow (100 / ellipsoid_volume det_mx (mat2 6 0 0 1)) (1 / INR 2)).
split=> //; first exact: demo_fit.
- by case: Hvol.
- have [] // := @enlarged_volume det_mx 2 (mat2 6 0 0 1) 100 _ Hvol erefl.
  by rewrite /det_mx detZ exprR_pow.
- rewrite /bounding_ellipsoids_head demo_fit.
  by case: RltbP => // H; case: H; case: Hvol.
Qed.

End Fit.

(** A witness for [sample_ellipsoid_inside]: one draw from the ellipsoid
    with shape [diag(4, 9)] and center [(1, 1)]. *)
Lemma sample_ellipsoid_inside_witness :
  exists x g1,
    sample_ellipsoid Tape.rand Tape.randn Tape.eig_diag
      (mat2 4 0 0 9) (vec2 1 1) 1 [:: 1; 1; 1 / 4]%Re = Some (inl x, g1) /\
    (quad_form (x - vec2 1 1) (mat2 (/ 4) 0 0 (/ 9)) (x - vec2 1 1) <= 1)%Re.
Proof.
have [x [g1 E]] : exists x g1,
    sample_ellipsoid Tape.rand Tape.randn Tape.eig_diag
      (mat2 4 0 0 9) (vec2 1 1) 1 [:: 1; 1; 1 / 4]%Re = Some (inl x, g1).
  by rewrite /sample_ellipsoid /randsphere /np_random_randn /=; eexists; eexists.
exists x, g1; split=> //.
apply: (sample_ellipsoid_inside TapeFacts.rand_range TapeFacts.randn_nonzero _ _ _ E).
- by rewrite /Tape.eig_diag /= mul1mx trmx1 mulmx1; mx2.
- by move=> j; rewrite /Tape.eig_diag /= !mxE; case: j => [[|[|?]] ?] //=; lra.
- by rewrite mat2M mat2_1; congr mat2; field.
- by rewrite inE.
Defined.

End FitDemo.

(** ** Evidence and information accumulators *)

Lemma exp_logaddexp (z w : R) : exp (np_logaddexp z w) = (exp z + exp w)%Re.
Proof.
rewrite /np_logaddexp exp_ln //.
by have := exp_pos z; have := exp_pos w; lra.
Qed.

(** The information update keeps the sum [(h + logz) e^logz] of the
    weighted log-likelihoods. *)
Lemma update_h_sum (hh z w l : R) :
  ((update_h hh z w l + np_logaddexp z w) * exp (np_logaddexp z w)
   = exp w * l + (hh + z) * exp z)%Re.
Proof.
rewrite /update_h; set zn := np_logaddexp z w.
have Hzn : (0 < exp zn)%Re by apply: exp_pos.
have -> : exp (w - zn) = (exp w / exp zn)%Re.
  by rewrite /Rminus exp_plus exp_Ropp.
have -> : exp (z - zn) = (exp z / exp zn)%Re.
  by rewrite /Rminus exp_plus exp_Ropp.
by field; lra.
Qed.

Lemma logz_init_neg : (logz_init < 0)%Re.
Proof.
rewrite /logz_init; have : (0 < 10 ^ 300)%Re by apply: pow_lt; lra.
by move: (10 ^ 300)%Re => x; lra.
Qed.

Lemma exp_le_mono (x y : R) : (x <= y)%Re -> (exp x <= exp y)%Re.
Proof.
by case=> [/exp_increasing|->]; [apply: Rlt_le | apply: Rle_refl].
Qed.

(** ** Concrete runs of [nest] *)

Module NestDemo.

Import RunInput.

Notation iteration_d :=
  (iteration Tape.rand Tape.randn Tape.eig_diag loglikelihood prior ellipsoid).
Notation main_loop_d :=
  (main_loop Tape.rand Tape.randn Tape.eig_diag loglikelihood prior ellipsoid).
Notation init_state_d := (init_state Tape.rand loglikelihood prior).
Notation nest_d :=
  (nest Tape.rand Tape.randn Tape.eig_diag loglikelihood prior ellipsoid).

Lemma loglikelihood_pt (a : R) : loglikelihood (pt a) = (26 * (a - 1 / 2))%Re.
Proof. by rewrite /loglikelihood mxE. Qed.

Lemma outside_cube_pt (a : R) : (0 <= a <= 1)%Re -> outside_cube (pt a) = false.
Proof.
by move=> Ha; apply/negbTE/outside_cubeP => j; rewrite mxE; case: j => [[|j] Hj].
Qed.

Lemma float_pow_1 (x : R) : (0 <= x)%Re -> float_pow x (1 / 1) = x.
Proof.
rewrite /float_pow; case: eqP => [->|/eqP Hx] // [Hx0|E]; last first.
  by rewrite -E eqxx in Hx.
by have -> : (1 / 1 = 1)%Re by [field]; apply: Rpower_1.
Qed.

(** The candidate drawn from the tape [1 :: r :: g]. *)
Lemma demo_candidate (r : R) (g : Tape.rng) :
  (0 <= r < 1)%Re ->
  sample_ellipsoid Tape.rand Tape.randn Tape.eig_diag 1%:M (pt (1 / 2)) 1
    (1%Re :: r :: g)
  = Some (inl (pt (1 / 2 + r)), g).
Proof.
move=> Hr.
rewrite /sample_ellipsoid /randsphere /np_random_randn /scaled_eigenvectors.
have H1 : 1%Re <> 0%Re by apply: R1_neq_R0.
have Hr0 : (0 <= r)%Re by lra.
rewrite /Tape.rand /Tape.eig_diag /= (TapeFacts.clip_id Hr) (TapeFacts.nonzero_id H1).
rewrite (float_pow_1 Hr0).
congr (Some (inl _, _)); apply/rowP => j.
rewrite !mxE !big_ord1 !mxE !big_ord1 !mxE /= mulr1n.
case: j => [[|j] Hj] //=.
by rewrite -!RmultE -RplusE !Rmult_1_r sqrt_1; to_R; field.
Qed.

Lemma replace_loopS (k : nat) (vs : 'M[R]_1) (mean : 'rV[R]_1) (loglstar : R)
    (calls : nat) (g : Tape.rng) (tr : seq (event 1)) :
  replace_loop Tape.rand Tape.randn Tape.eig_diag loglikelihood prior k.+1
    vs mean loglstar calls g tr
  = if sample_ellipsoid Tape.rand Tape.randn Tape.eig_diag vs mean 1 g
      is Some (inl u, g1) then
      let tr1 := rcons tr (Candidate u) in
      if outside_cube u then
        replace_loop Tape.rand Tape.randn Tape.eig_diag loglikelihood prior k
          vs mean loglstar calls g1 tr1
      else
        let v := prior u in
        let logl := loglikelihood v in
        let tr2 := rcons (rcons tr1 (CallPrior u)) (CallLoglikelihood v) in
        if loglstar <b logl then Some (u, v, logl, calls.+1, g1, tr2)
        else
          replace_loop Tape.rand Tape.randn Tape.eig_diag loglikelihood prior k
            vs mean loglstar calls.+1 g1 tr2
    else None.
Proof. by []. Qed.

Lemma demo_pass (nobj fuel it : nat) (st : state Tape.rng 1) (w : nat) (r : R)
    (g : Tape.rng) (nd : nat) :
  np_argmin (objects_logl st) = Some w ->
  (w < size (objects_u st))%N -> (w < size (objects_v st))%N ->
  gen st = 1%Re :: r :: g ->
  (0 <= r <= 1 / 2)%Re ->
  (nth 0 (objects_logl st) w < 26 * r)%Re ->
  next_ndecl (logwidth st + nth 0 (objects_logl st) w) (logwt_old st) (ndecl st)
    = nd ->
  iteration_d nobj fuel.+1 it st
  = Some (pass_state nobj st w r g nd (stop_rule nd it), stop_rule nd it).
Proof.
move=> Hw Hu Hv Hg Hr Hl Hnd.
have [Hwl _] := np_argminP Hw.
have Hr1 : (0 <= r < 1)%Re by lra.
have Hc : (0 <= 1 / 2 + r <= 1)%Re by lra.
rewrite /iteration Hw /ellipsoid replace_loopS.
rewrite Hg (demo_candidate g Hr1) (outside_cube_pt Hc) /prior loglikelihood_pt.
have -> : (26 * (1 / 2 + r - 1 / 2) = 26 * r)%Re by field.
have /RltbP -> := Hl.
by rewrite /assign Hu Hv Hwl Hnd /pass_state -!cats1 -!catA.
Qed.

Lemma main_loopS (nobj fuel n it : nat) (last : option nat)
    (st : state Tape.rng 1) :
  main_loop_d nobj fuel n.+1 it last st
  = if iteration_d nobj fuel it st is Some (st1, stop) then
      if stop then Some (st1, Some it, true)
      else main_loop_d nobj fuel n it.+1 (Some it) st1
    else None.
Proof. by []. Qed.

Lemma demo_init1 (u0 : R) (g : Tape.rng) :
  (0 <= u0 < 1)%Re ->
  init_state_d 1 (u0 :: g)
  = Some (State [:: pt u0] [:: pt u0] [:: (26 * (u0 - 1 / 2))%Re] [::] [::]
            0 logz_init lw0 1 0 None g
            [:: CallPrior (pt u0); CallLoglikelihood (pt u0)]).
Proof.
move=> Hu; rewrite /init_state [np_random_random _ _ _ _]/=.
by rewrite /Tape.rand /= (TapeFacts.clip_id Hu) /prior loglikelihood_pt.
Qed.

(** *** A run of fifteen passes with two equal weights

    The run on [tape15] under [loglikelihood32]. *)

Notation main_loop_t :=
  (main_loop Tape.rand Tape.randn Tape.eig_diag loglikelihood32 prior ellipsoid).
Notation init_state_t := (init_state Tape.rand loglikelihood32 prior).

Lemma loglikelihood32_pt (a : R) :
  loglikelihood32 (pt a) = (32 * (a - 1 / 2))%Re.
Proof. by rewrite /loglikelihood32 mxE. Qed.

Lemma replace_loop_tS (k : nat) (vs : 'M[R]_1) (mean : 'rV[R]_1)
    (loglstar : R) (calls : nat) (g : Tape.rng) (tr : seq (event 1)) :
  replace_loop Tape.rand Tape.randn Tape.eig_diag loglikelihood32 prior k.+1
    vs mean loglstar calls g tr
  = if sample_ellipsoid Tape.rand Tape.randn Tape.eig_diag vs mean 1 g
      is Some (inl u, g1) then
      let tr1 := rcons tr (Candidate u) in
      if outside_cube u then
        replace_loop Tape.rand Tape.randn Tape.eig_diag loglikelihood32 prior
          k vs mean loglstar calls g1 tr1
      else
        let v := prior u in
        let logl := loglikelihood32 v in
        let tr2 := rcons (rcons tr1 (CallPrior u)) (CallLoglikelihood v) in
        if loglstar <b logl then Some (u, v, logl, calls.+1, g1, tr2)
        else
          replace_loop Tape.rand Tape.randn Tape.eig_diag loglikelihood32
            prior k vs mean loglstar calls.+1 g1 tr2
    else None.
Proof. by []. Qed.

Lemma main_loop_tS (n it : nat) (last : option nat) (st : state Tape.rng 1) :
  main_loop_t 1 1 n.+1 it last st
  = if iteration Tape.rand Tape.randn Tape.eig_diag loglikelihood32 prior
         ellipsoid 1 1 it st is Some (st1, stop) then
      if stop then Some (st1, Some it, true)
      else main_loop_t 1 1 n it.+1 (Some it) st1
    else None.
Proof. by []. Qed.

Lemma demo_init_t (u0 : R) (g : Tape.rng) :
  (0 <= u0 < 1)%Re ->
  init_state_t 1 (u0 :: g)
  = Some (State [:: pt u0] [:: pt u0] [:: (32 * (u0 - 1 / 2))%Re] [::] [::]
            0 logz_init lw0 1 0 None g
            [:: CallPrior (pt u0); CallLoglikelihood (pt u0)]).
Proof.
move=> Hu; rewrite /init_state [np_random_random _ _ _ _]/=.
by rewrite /Tape.rand /= (TapeFacts.clip_id Hu) /prior loglikelihood32_pt.
Qed.

(** A pass with one live point. *)
Lemma demo_pass_t (it : nat) (u v : 'rV[R]_1)
    (l : R) (pv : seq 'rV[R]_1) (ws : seq R) (hh z lw : R) (calls nd : nat)
    (old : option R) (r : R) (g : Tape.rng) (tr : seq (event 1)) (nd1 : nat) :
  (0 <= r <= 1 / 2)%Re -> (l < 32 * r)%Re ->
  next_ndecl (lw + l) old nd = nd1 ->
  iteration Tape.rand Tape.randn Tape.eig_diag loglikelihood32 prior ellipsoid
    1 1 it
    (State [:: u] [:: v] [:: l] pv ws hh z lw calls nd old (1%Re :: r :: g) tr)
  = Some
      (State [:: pt (1 / 2 + r)] [:: pt (1 / 2 + r)] [:: (32 * r)%Re]
         (rcons pv v) (rcons ws (lw + l)%Re)
         (update_h hh z (lw + l) l) (np_logaddexp z (lw + l)) (lw - 1)%Re
         calls.+1 nd1
         (if stop_rule nd1 it then old else Some (lw + l)%Re) g
         (tr ++ [:: Candidate (pt (1 / 2 + r)); CallPrior (pt (1 / 2 + r));
                    CallLoglikelihood (pt (1 / 2 + r))]),
       stop_rule nd1 it).
Proof.
move=> Hr Hl Hnd.
have Hr1 : (0 <= r < 1)%Re by lra.
have Hc : (0 <= 1 / 2 + r <= 1)%Re by lra.
set st := State _ _ _ _ _ _ _ _ _ _ _ _ _.
have Hw : np_argmin (objects_logl st) = Some 0%N by [].
have Hg : gen st = 1%Re :: r :: g by [].
have Hl0 : (nth 0 (objects_logl st) 0 < 32 * r)%Re by [].
rewrite /iteration Hw /ellipsoid replace_loop_tS Hg.
rewrite (demo_candidate g Hr1) (outside_cube_pt Hc) /prior loglikelihood32_pt.
have -> : (32 * (1 / 2 + r - 1 / 2) = 32 * r)%Re by field.
have /RltbP -> := Hl0.
rewrite /assign /st /= Hnd -!cats1 -!catA /=.
by have -> : (lw - 1 / 1 = lw - 1)%Re by field.
Qed.

(** A pass with one live point, the loop going on. *)
Lemma demo_step (n it : nat) (last : option nat) (u v : 'rV[R]_1)
    (l : R) (pv : seq 'rV[R]_1) (ws : seq R) (hh z lw : R) (calls nd : nat)
    (old : option R) (r : R) (g : Tape.rng) (tr : seq (event 1)) (nd1 : nat) :
  (0 <= r <= 1 / 2)%Re -> (l < 32 * r)%Re ->
  next_ndecl (lw + l) old nd = nd1 -> stop_rule nd1 it = false ->
  main_loop_t 1 1 n.+1 it last
    (State [:: u] [:: v] [:: l] pv ws hh z lw calls nd old (1%Re :: r :: g) tr)
  = main_loop_t 1 1 n it.+1 (Some it)
      (State [:: pt (1 / 2 + r)] [:: pt (1 / 2 + r)] [:: (32 * r)%Re]
         (rcons pv v) (rcons ws (lw + l)%Re)
         (update_h hh z (lw + l) l) (np_logaddexp z (lw + l)) (lw - 1)%Re
         calls.+1 nd1 (Some (lw + l)%Re) g
         (tr ++ [:: Candidate (pt (1 / 2 + r)); CallPrior (pt (1 / 2 + r));
                    CallLoglikelihood (pt (1 / 2 + r))])).
Proof.
move=> Hr Hl Hnd Hstop.
by rewrite main_loop_tS (@demo_pass_t it u v l pv ws hh z lw calls nd old r g tr
             nd1 Hr Hl Hnd) Hstop.
Qed.

(** A pass with one live point that ends in [break]. *)
Lemma demo_stop (n it : nat) (last : option nat) (u v : 'rV[R]_1)
    (l : R) (pv : seq 'rV[R]_1) (ws : seq R) (hh z lw : R) (calls nd : nat)
    (old : option R) (r : R) (g : Tape.rng) (tr : seq (event 1)) (nd1 : nat) :
  (0 <= r <= 1 / 2)%Re -> (l < 32 * r)%Re ->
  next_ndecl (lw + l) old nd = nd1 -> stop_rule nd1 it = true ->
  main_loop_t 1 1 n.+1 it last
    (State [:: u] [:: v] [:: l] pv ws hh z lw calls nd old (1%Re :: r :: g) tr)
  = Some
      (State [:: pt (1 / 2 + r)] [:: pt (1 / 2 + r)] [:: (32 * r)%Re]
         (rcons pv v) (rcons ws (lw + l)%Re)
         (update_h hh z (lw + l) l) (np_logaddexp z (lw + l)) (lw - 1)%Re
         calls.+1 nd1 old g
         (tr ++ [:: Candidate (pt (1 / 2 + r)); CallPrior (pt (1 / 2 + r));
                    CallLoglikelihood (pt (1 / 2 + r))]),
       Some it, true).
Proof.
move=> Hr Hl Hnd Hstop.
by rewrite main_loop_tS (@demo_pass_t it u v l pv ws hh z lw calls nd old r g tr
             nd1 Hr Hl Hnd) Hstop.
Qed.

Lemma next_ndecl_first (w : R) (nd : nat) : next_ndecl w None nd = 0%N.
Proof. by []. Qed.

Lemma next_ndecl_reset (w o : R) (nd : nat) :
  (o <= w)%Re -> next_ndecl w (Some o) nd = 0%N.
Proof. by move=> H; rewrite /next_ndecl; case: RltbP => // ?; lra. Qed.

Lemma next_ndecl_count (w o : R) (nd : nat) :
  (w < o)%Re -> next_ndecl w (Some o) nd = nd.+1.
Proof. by move=> /RltbP H; rewrite /next_ndecl H. Qed.

Ltac demo_go k :=
  rewrite (@demo_step _ _ _ _ _ _ _ _ _ _ _ _ _ _ _ _ _ k);
    [ lra | lra
      | first [ exact: next_ndecl_first
              | by apply: next_ndecl_reset; lra
              | by apply: next_ndecl_count; lra ]
      | by [] | ].

Lemma run15 :
  exists st,
    [/\ init_state_t 1 tape15 <> None,
        (forall st0, init_state_t 1 tape15 = Some st0 ->
           main_loop_t 1 1 15 0 None st0 = Some (st, Some 14%N, true))
      & samples_logwt st
        = [:: lw0 + 32 * (1 / 2 - 1 / 2);
              lw0 - 1 + 32 * (1 / 64);
              lw0 - 1 - 1 + 32 * (2 / 64);
              lw0 - 1 - 1 - 1 + 32 * (4 / 64);
              lw0 - 1 - 1 - 1 - 1 + 32 * (5 / 64);
              lw0 - 1 - 1 - 1 - 1 - 1 + 32 * (6 / 64);
              lw0 - 1 - 1 - 1 - 1 - 1 - 1 + 32 * (7 / 64);
              lw0 - 1 - 1 - 1 - 1 - 1 - 1 - 1 + 32 * (8 / 64);
              lw0 - 1 - 1 - 1 - 1 - 1 - 1 - 1 - 1 + 32 * (9 / 64);
              lw0 - 1 - 1 - 1 - 1 - 1 - 1 - 1 - 1 - 1 + 32 * (10 / 64);
              lw0 - 1 - 1 - 1 - 1 - 1 - 1 - 1 - 1 - 1 - 1 + 32 * (11 / 64);
              lw0 - 1 - 1 - 1 - 1 - 1 - 1 - 1 - 1 - 1 - 1 - 1 + 32 * (12 / 64);
              lw0 - 1 - 1 - 1 - 1 - 1 - 1 - 1 - 1 - 1 - 1 - 1 - 1 + 32 * (13 / 64);
              lw0 - 1 - 1 - 1 - 1 - 1 - 1 - 1 - 1 - 1 - 1 - 1 - 1 - 1 + 32 * (14 / 64);
              lw0 - 1 - 1 - 1 - 1 - 1 - 1 - 1 - 1 - 1 - 1 - 1 - 1 - 1 - 1 + 32 * (15 / 64)]%Re].
Proof.
have Hu : (0 <= 1 / 2 < 1)%Re by lra.
eexists; split; first by rewrite /tape15 (demo_init_t _ Hu).
  move=> st0; rewrite /tape15 (demo_init_t _ Hu) => -[<-].
  demo_go 0%N. demo_go 1%N. demo_go 2%N. demo_go 0%N. demo_go 1%N.
  demo_go 2%N. demo_go 3%N. demo_go 4%N. demo_go 5%N. demo_go 6%N.
  demo_go 7%N. demo_go 8%N. demo_go 9%N. demo_go 10%N.
  rewrite (@demo_stop _ _ _ _ _ _ _ _ _ _ _ _ _ _ _ _ _ 11);
    [lra | lra | by apply: next_ndecl_count; lra | by [] | reflexivity].
by [].
Qed.

(** C4, as stated, fails on the run of fifteen passes: the weight of
    pass 3 equals that of pass 2, so after pass 11 the counter of the
    passes whose weight failed to exceed the previous one is 11, above
    both 10 and [11/6], yet the loop goes on and leaves by [break] at
    pass 14 only. *)
Lemma stopping_rule_counterexample :
  ~ stops_exactly_when Tape.rand Tape.randn Tape.eig_diag
      loglikelihood32 prior ellipsoid 1 1 failed_to_exceed.
Proof.
move=> H; have [st [Hinit Hloop Hws]] := run15.
case E: (init_state_t 1 tape15) Hinit => [st0|] // _.
have [Hrule _] := H tape15 15%N st0 st (Some 14%N) true E (Hloop _ E) 11%N isT.
suff Hr : rule_at failed_to_exceed (samples_logwt st) 11 by case: (Hrule Hr).
rewrite /rule_at Hws /= /failed_to_exceed.
do 11 (case: RltbP => [?|_] /=; first by lra).
by split=> //; lra.
Qed.

(** A witness for [stops_when_strict_decline_run]: the run of fifteen
    passes leaves by [break] at pass 14, where the counter of strict
    declines, reset at pass 3, reaches 11. *)
Lemma stops_when_strict_decline_run_witness :
  exists st0 st,
    [/\ init_state_t 1 tape15 = Some st0,
        main_loop_t 1 1 15 0 None st0 = Some (st, Some 14%N, true)
      & rule_at strictly_below (samples_logwt st) 14 <->
        true /\ Some 14%N = Some 14%N].
Proof.
have [st [Hinit Hloop Hws]] := run15.
case E: (init_state_t 1 tape15) Hinit => [st0|] // _.
exists st0, st; split=> //; first exact: Hloop.
exact: (@stops_when_strict_decline_run _ Tape.rand Tape.randn Tape.eig_diag _
          loglikelihood32 prior ellipsoid 1 1 tape15 15%N st0 st (Some 14%N)
          true E (Hloop _ E) 14%N isT).
Defined.

(** *** A run of one pass whose candidate lies on the boundary of the cube *)

Lemma run1_init : init_state_d 1 tape1 = Some st1_init.
Proof. by rewrite /tape1 demo_init1 //; lra. Qed.

Lemma run1_pass : iteration_d 1 1 0 st1_init = Some (st1_pass, false).
Proof.
by rewrite (@demo_pass 1 0 0 st1_init 0 (1 / 2) [::] 0) //=; lra.
Qed.

Lemma run1_loop : main_loop_d 1 1 1 0 None st1_init = Some (st1_pass, Some 0%N, false).
Proof. by rewrite main_loopS run1_pass. Qed.

(** C6: in the run on [tape1] the candidate [u = 1] passes the cube test
    of line 352 and is handed to [prior], although its component is not
    in [[0, 1)]. *)
Theorem prior_called_on_cube_boundary :
  exists st0 st,
    [/\ init_state_d 1 tape1 = Some st0,
        main_loop_d 1 1 1 0 None st0 = Some (st, Some 0%N, false),
        trace st
        = [:: CallPrior (pt (1 / 2)); CallLoglikelihood (pt (1 / 2));
              Candidate (pt (1 / 2 + 1 / 2)); CallPrior (pt (1 / 2 + 1 / 2));
              CallLoglikelihood (pt (1 / 2 + 1 / 2))],
        pt (1 / 2 + 1 / 2) ord0 ord0 = 1%Re
      & ~ in_unit_cube (pt (1 / 2 + 1 / 2))].
Proof.
exists st1_init, st1_pass; split=> //.
- exact: run1_init.
- exact: run1_loop.
- by rewrite mxE /=; field.
- by move/(_ ord0); rewrite mxE /=; lra.
Qed.

(** A witness for [replacement_beats_worst]. *)
Lemma replacement_beats_worst_witness :
  [/\ (nth 0 (objects_logl st1_init) 0 < nth 0 (objects_logl st1_pass) 0)%Re,
      nth 0 (objects_logl st1_pass) 0
        = loglikelihood (nth 0 (objects_v st1_pass) 0)
    & nth 0 (objects_v st1_pass) 0 = prior (nth 0 (objects_u st1_pass) 0)].
Proof.
exact: (replacement_beats_worst run1_pass (erefl (Some 0%N))).
Defined.

(** A witness for [logwidth_after_passes]. *)
Lemma logwidth_after_passes_witness :
  logwidth st1_pass = (ln (1 - exp (- 1 / INR 1)) - INR 1 / INR 1)%Re.
Proof.
by case: (logwidth_after_passes (isT : (1 <= 1)%N) run1_init run1_loop).
Defined.


(** The run on [tape1] completes: the information is not negative when
    the result is built. *)
Lemma run1_h_nonneg : (0 <= h (finalize 1 st1_pass))%Re.
Proof.
rewrite /finalize /st1_pass /pass_state /st1_init /=.
have -> : (26 * (1 / 2 - 1 / 2) = 0)%Re by field.
have -> : (final_logwidth 1 1 + 26 * (1 / 2) = 12)%Re.
  rewrite /final_logwidth /= ln_1.
  have -> : (-1 / 1 = -1)%Z by [].
  by field.
rewrite Rplus_0_r.
set z1 := np_logaddexp logz_init lw0.
set h1 := update_h 0 logz_init lw0 0.
set z2 := np_logaddexp z1 12.
set h2 := update_h h1 z1 12 (26 * (1 / 2)).
have F1 := update_h_sum 0 logz_init lw0 0.
have F2 := update_h_sum h1 z1 12 (26 * (1 / 2)).
rewrite -/h1 -/z1 in F1; rewrite -/h2 -/z2 in F2.
have E1 := exp_logaddexp logz_init lw0; rewrite -/z1 in E1.
have E2 := exp_logaddexp z1 12; rewrite -/z2 in E2.
set A := exp logz_init in F1 E1.
have HA : (0 < A < 1)%Re.
  split; first exact: exp_pos.
  by rewrite -exp_0; apply: exp_increasing; apply: logz_init_neg.
have HZA : (-1 <= logz_init * A)%Re.
  have := exp_ineq1_le (- logz_init); rewrite exp_Ropp -/A => Hx.
  have Hn := logz_init_neg.
  have HiA : (0 < / A)%Re by apply: Rinv_0_lt_compat; case: HA.
  have EA : (A * / A = 1)%Re by apply: Rinv_r; lra.
  by nra.
have HB : (0 < exp lw0 < 1)%Re.
  have Hm : (exp (- 1 / INR 1) < 1)%Re.
    by rewrite -exp_0; apply: exp_increasing; rewrite /=; lra.
  have Hp := exp_pos (- 1 / INR 1).
  by rewrite /lw0 exp_ln; lra.
set B := exp lw0 in F1 E1 HB.
have HC : (49 <= exp 12)%Re.
  have -> : (12 = 6 + 6)%Re by ring.
  by rewrite exp_plus; have := exp_ineq1_le 6; nra.
set C := exp 12 in F2 E2 HC.
set d := (A + B)%Re.
have Hd : (0 < d < 2)%Re by rewrite /d; lra.
have HiC : (0 < / C <= 1)%Re.
  split; first by apply: Rinv_0_lt_compat; lra.
  by rewrite -Rinv_1; apply: Rinv_le_contravar; lra.
have Ht : (d / C * C = d)%Re by field; lra.
have Ht1 : (0 < d / C < 2)%Re by rewrite /Rdiv; nra.
set y := (h2 + z2)%Re in F2.
have Hy : (12 + d / C <= y)%Re.
  apply: (Rmult_le_reg_r (exp z2)); first exact: exp_pos.
  rewrite F2 F1 E2 E1 -/d.
  by nra.
have Hexp : (exp z2 <= exp y)%Re.
  apply: Rle_trans (exp_le_mono Hy).
  rewrite exp_plus -/C E2 E1 -/C -/d.
  by have := exp_ineq1_le (d / C); nra.
suff : (z2 <= y)%Re by rewrite /y; lra.
by apply: Rnot_lt_le => /exp_increasing; lra.
Qed.


Lemma run1_nest :
  exists res tr, nest_d 1 1 1 tape1 = Some (res, tr).
Proof.
rewrite /nest run1_init run1_loop /make_result.
case: RltbP => [H|_].
  have := run1_h_nonneg; move: H.
  have -> : INR 1 = 1%Re by [].
  by lra.
by rewrite /=; eexists; eexists.
Qed.

(** A witness for [ncalls_counts_evaluations]: the completed run on
    [tape1]. *)
Lemma ncalls_counts_evaluations_witness :
  exists res tr,
    nest_d 1 1 1 tape1 = Some (res, tr) /\
    (1 + res_niter res <= res_ncalls res)%N.
Proof.
have [res [tr E]] := run1_nest.
exists res, tr; split=> //.
by case: (ncalls_counts_evaluations E).
Defined.

(** *** A run of one pass with two live points *)

Lemma run2_init : init_state_d 2 tape2 = Some st2_init.
Proof.
rewrite /init_state [np_random_random _ _ _ _]/= /Tape.rand /=.
by rewrite !TapeFacts.clip_id /prior ?loglikelihood_pt //; lra.
Qed.

Lemma run2_argmin : np_argmin (objects_logl st2_init) = Some 0%N.
Proof. by rewrite /np_argmin /=; case: RltbP => // H; lra. Qed.

Lemma run2_pass : iteration_d 2 1 0 st2_init = Some (st2_pass, false).
Proof.
rewrite (@demo_pass 2 0 0 st2_init 0 (1 / 4) [::] 0) //=; try lra.
exact: run2_argmin.
Qed.

Lemma run2_loop :
  main_loop_d 2 1 1 0 None st2_init = Some (st2_pass, Some 0%N, false).
Proof. by rewrite main_loopS run2_pass. Qed.

(** A witness for [live_set_frame]: the pass of the run on [tape2], with
    two live points; it writes index 0 and leaves index 1 as it is. *)
Lemma live_set_frame_witness :
  [/\ (0 < 2)%N /\
      (forall j, (j < 2)%N ->
         (nth 0 (objects_logl st2_init) 0
          <= nth 0 (objects_logl st2_init) j)%Re),
      [/\ size (objects_u st2_init) = 2, size (objects_v st2_init) = 2
        & size (objects_logl st2_init) = 2],
      [/\ size (objects_u st2_pass) = 2, size (objects_v st2_pass) = 2
        & size (objects_logl st2_pass) = 2],
      (forall j : nat, j != 0%N ->
         [/\ nth 0 (objects_u st2_pass) j = nth 0 (objects_u st2_init) j,
             nth 0 (objects_v st2_pass) j = nth 0 (objects_v st2_init) j
           & nth 0 (objects_logl st2_pass) j
             = nth 0 (objects_logl st2_init) j])
    & exists u,
        [/\ objects_u st2_pass = set_nth u (objects_u st2_init) 0 u,
            objects_v st2_pass
              = set_nth (prior u) (objects_v st2_init) 0 (prior u),
            objects_logl st2_pass
              = set_nth (loglikelihood (prior u)) (objects_logl st2_init) 0
                  (loglikelihood (prior u))
          & nth 0 (objects_logl st2_pass) 0
            <> nth 0 (objects_logl st2_init) 0]].
Proof.
have Hloop0 : main_loop_d 2 1 0 0 None st2_init = Some (st2_init, None, false).
  by [].
exact: (live_set_frame run2_init Hloop0 run2_pass run2_argmin).
Defined.

(** C2: in the run on [tape2], with [nobj = 2] live points and
    [niter = 1] pass, the log width that FINALIZE folds into the
    accumulators and the sample records is [-1 - log 2], the floor of
    [-1/2] minus [log 2], and not [-1/2 - log 2]. *)
Theorem finalize_width_uses_floor_division :
  exists st0 st,
    [/\ init_state_d 2 tape2 = Some st0,
        main_loop_d 2 1 1 0 None st0 = Some (st, Some 0%N, false),
        logwidth (finalize 2 st) = (- 1 - ln 2)%Re,
        drop 1 (samples_logwt (finalize 2 st))
        = [seq (- 1 - ln 2 + logl)%Re | logl <- objects_logl st]
      & (- 1 - ln 2)%Re <> (- INR 1 / INR 2 - ln (INR 2))%Re].
Proof.
have E2 : INR 2 = 2%Re by rewrite /=; ring.
have Ew : final_logwidth 2 1 = (- 1 - ln 2)%Re.
  rewrite /final_logwidth E2.
  by have -> : (- Z.of_nat 1 / Z.of_nat 2 = -1)%Z by [].
exists st2_init, st2_pass; split.
- exact: run2_init.
- exact: run2_loop.
- have [_ _ _ _ ->] := finalize_stepsP (iota 0 2)
    (State (objects_u st2_pass) (objects_v st2_pass) (objects_logl st2_pass)
       (samples_parvals st2_pass) (samples_logwt st2_pass) (h st2_pass)
       (logz st2_pass) (final_logwidth 2 (size (samples_parvals st2_pass)))
       (loglcalls st2_pass) (ndecl st2_pass) (logwt_old st2_pass)
       (gen st2_pass) (trace st2_pass)).
  exact: Ew.
- by rewrite finalize_logwt // [size _]/= Ew.
- by rewrite E2 /=; lra.
Qed.

End NestDemo.

(** * Further properties *)

(** ** [np.max], [np.logaddexp] and the runs of [nest] *)

Lemma foldl_RmaxP (s : seq R) (a : R) :
  let m := foldl Rmax a s in
  [/\ m \in a :: s, (a <= m)%Re & forall x, x \in s -> (x <= m)%Re].
Proof.
elim: s a => [|b s IH] a /=; first by rewrite inE eqxx; split=> //; lra.
have [Hin Hle Hall] := IH (Rmax a b); split.
- move: Hin; rewrite !inE; case/orP => [/eqP ->|->]; last by rewrite !orbT.
  by rewrite /Rmax; case: Rle_dec => _; rewrite eqxx ?orbT.
- by apply: Rle_trans Hle; apply: Rmax_l.
- move=> x; rewrite inE; case/orP => [/eqP ->|]; last exact: Hall.
  by apply: Rle_trans Hle; apply: Rmax_r.
Qed.

Lemma np_maxP (s : seq R) (m : R) :
  np_max s = Some m -> m \in s /\ forall x, x \in s -> (x <= m)%Re.
Proof.
case: s => [|a s] //= [<-]; have [Hin Hle Hall] := foldl_RmaxP s a.
split=> // x; rewrite inE; case/orP => [/eqP ->|] //; exact: Hall.
Qed.

Lemma logaddexp_gt (a b : R) : (a < np_logaddexp a b)%Re.
Proof.
rewrite /np_logaddexp -{1}(ln_exp a); apply: ln_increasing; first exact: exp_pos.
by have := exp_pos b; lra.
Qed.

Lemma zip_map1 (A B C : Type) (f : A -> C) (s : seq A) (t : seq B) :
  zip (map f s) t = [seq (f p.1, p.2) | p <- zip s t].
Proof. by elim: s t => [|a s IH] [|b t] //=; rewrite IH. Qed.

(** A call of [sample_ellipsoid] for one sample that returns was made
    in a positive dimension: [randsphere] divides by the dimension. *)
Lemma sample_ellipsoid_dim (rng : Type) (rand randn : rng -> R * rng)
    (eig : forall n : nat, 'M[R]_n -> 'rV[R]_n * 'M[R]_n) (n : nat)
    (shape : 'M[R]_n) (center : 'rV[R]_n) (g g1 : rng)
    (r : 'rV[R]_n + seq 'rV[R]_n) :
  sample_ellipsoid rand randn eig shape center 1 g = Some (r, g1) ->
  (0 < n)%N.
Proof.
rewrite /sample_ellipsoid eqxx /randsphere /np_random_randn.
by case: draws => zs g2; case: n shape center r.
Qed.

Section NestMore.

Variable rng : Type.
Variable rand : rng -> R * rng.
Variable randn : rng -> R * rng.
Variable eig : forall n : nat, 'M[R]_n -> 'rV[R]_n * 'M[R]_n.
Variable npar : nat.
Variable loglikelihood : 'rV[R]_npar -> R.
Variable prior : 'rV[R]_npar -> 'rV[R]_npar.
Variable ellipsoid : seq 'rV[R]_npar -> R -> 'M[R]_npar * 'rV[R]_npar.
Variable nobj : nat.
Variable fuel : nat.

Local Notation state := (state rng npar).
Local Notation event := (event npar).
Local Notation replace_loop' :=
  (replace_loop rand randn eig loglikelihood prior).
Local Notation iteration' :=
  (iteration rand randn eig loglikelihood prior ellipsoid nobj fuel).
Local Notation main_loop' :=
  (main_loop rand randn eig loglikelihood prior ellipsoid nobj fuel).
Local Notation init_state' :=
  (init_state rand loglikelihood prior nobj (npar := npar)).
Local Notation nest' :=
  (nest rand randn eig loglikelihood prior ellipsoid nobj fuel).
Local Notation in_step := (in_step loglikelihood prior nobj (rng := rng)).

(** A run of [nest], taken apart. *)
Lemma nestP (maxiter : nat) (g : rng) (res : result npar) (tr : seq event) :
  nest' maxiter g = Some (res, tr) ->
  exists st0 st it stopped,
    [/\ init_state' g = Some st0,
        main_loop' maxiter 0 None st0 = Some (st, Some it, stopped),
        make_result nobj (finalize nobj st) (Some it) = Some res
      & tr = trace (finalize nobj st)].
Proof.
rewrite /nest; case Hinit: init_state => [st0|] //.
case Hloop: main_loop => [[[st last] stopped]|] //.
case Hres: make_result => [r|] // [<- <-].
case: last Hloop Hres => [it|] // Hloop Hres.
by exists st0, st, it, stopped.
Qed.

Lemma make_resultP (st : state) (it : nat) (res : result npar) :
  make_result nobj st (Some it) = Some res ->
  [/\ (0 <= h st / INR nobj)%Re,
      [/\ res_niter res = it.+1, res_ncalls res = loglcalls st,
          res_logz res = logz st & res_h res = h st],
      res_samples_parvals res = samples_parvals st
    & res_samples_wt res
      = [seq exp (lw - logz st) | lw <- samples_logwt st]].
Proof.
rewrite /make_result; case: RltbP => // /Rnot_lt_le Hh.
by case: np_max => [lmax|] // [<-].
Qed.

(** The number of passes the main loop makes. *)
Lemma main_loop_passes (n it : nat) (last : option nat) (st st1 : state)
    (last1 : option nat) (stopped : bool) :
  passes last = it ->
  main_loop' n it last st = Some (st1, last1, stopped) ->
  (passes last1 <= it + n)%N /\ (stopped = false -> passes last1 = (it + n)%N).
Proof.
elim: n it last st => [|n IH] it last st Hlast /=.
  by case=> _ <- <-; rewrite Hlast addn0.
case Hit: iteration => [[st2 stop]|] //; case: stop Hit => Hit.
  by case=> _ <- <- /=; split=> //; rewrite -addn1 leq_add2l.
by move/(IH it.+1 (Some it) st2 (erefl _)); rewrite addSnnS.
Qed.

Lemma finalize_steps_samples (l : seq nat) (st : state) :
  let st1 := foldl (finalize_step (npar := npar)) st l in
  [/\ samples_parvals st1
        = samples_parvals st ++ [seq nth 0 (objects_v st) i | i <- l],
      objects_u st1 = objects_u st
    & (logz st <= logz st1)%Re].
Proof.
elim: l st => [|i l IH] st /=; first by rewrite cats0; split=> //; lra.
case: (IH (finalize_step st i)) => -> -> Hz /=; split=> //.
  by rewrite -cats1 -catA.
by apply: Rle_trans Hz; apply/Rlt_le/logaddexp_gt.
Qed.

(** The samples that FINALIZE appends. *)
Lemma finalize_samples (st : state) :
  [/\ samples_parvals (finalize nobj st)
        = samples_parvals st ++ [seq nth 0 (objects_v st) i | i <- iota 0 nobj],
      objects_u (finalize nobj st) = objects_u st
    & (logz st <= logz (finalize nobj st))%Re].
Proof.
rewrite /finalize; set s1 := (X in foldl _ X _).
by case: (finalize_steps_samples (iota 0 nobj) s1).
Qed.

(** The sizes of the sample records and of the live set during the main
    loop. *)
Lemma main_loop_samples (g : rng) (k : nat) (st0 st : state)
    (last : option nat) (stopped : bool) :
  init_state' g = Some st0 ->
  main_loop' k 0 None st0 = Some (st, last, stopped) ->
  [/\ size (samples_parvals st) = passes last,
      size (samples_logwt st) = passes last
    & [/\ size (objects_u st) = nobj, size (objects_v st) = nobj
        & size (objects_logl st) = nobj]].
Proof.
move=> Hinit Hloop.
have [_ [Su0 Sv0 Sl0] [_ _ Ews0 _ _] _] := init_stateP Hinit.
pose P (i : nat) (s : state) :=
  [/\ size (samples_parvals s) = i, size (samples_logwt s) = i
    & [/\ size (objects_u s) = nobj, size (objects_v s) = nobj
        & size (objects_logl s) = nobj]].
apply: (main_loopP (P := P) _ (n := k) (it := 0) (last := None) _ _ Hloop) => //.
  move=> it s s1 b; rewrite /P => -[Sp Sw [Su Sv Sl]].
  case/iterationP => w [u [v [logl /= [_ _ [Hu Hv Hl] [-> -> _ _] _]]]].
  have [_ Eu _ _] := assignP 0 Hu; have [_ Ev _ _] := assignP 0 Hv.
  have [_ El _ _] := assignP 0%Re Hl.
  by rewrite !size_rcons Sp Sw Eu Ev El.
split=> //; last by rewrite Ews0.
by move: Hinit; rewrite /init_state; case: np_random_random => us g1;
   case: nobj => // n [<-].
Qed.

(** A pass draws from [sample_ellipsoid], which raises in dimension
    zero. *)
Lemma iteration_dim (it : nat) (st st1 : state) (stop : bool) :
  iteration' it st = Some (st1, stop) -> (0 < npar)%N.
Proof.
case/iterationP => w [u [v [logl /= [_ Hr _ _ _]]]].
case: fuel Hr => [|k] //=.
case Hs: sample_ellipsoid => [[r g1]|] // _.
exact: sample_ellipsoid_dim Hs.
Qed.

(** X1: a run that returns a result had [nobj >= 1], [npar >= 1] and
    [maxiter >= 1], made between 1 and [maxiter] passes, and returns one
    sample and one weight for every pass and for every live point. *)
Theorem result_sizes (maxiter : nat) (g : rng) (res : result npar)
    (tr : seq event) :
  nest' maxiter g = Some (res, tr) ->
  [/\ (0 < nobj)%N /\ (0 < npar)%N, (0 < res_niter res <= maxiter)%N,
      size (res_samples_parvals res) = (res_niter res + nobj)%N
    & size (res_samples_wt res) = (res_niter res + nobj)%N].
Proof.
case/nestP => st0 [st [it [stopped [Hinit Hloop Hres _]]]].
have [Hn _ _ _] := init_stateP Hinit.
have [Sp Sw [_ Sv Sl]] := main_loop_samples Hinit Hloop.
have [Hle _] := @main_loop_passes _ 0 None _ _ _ _ (erefl _) Hloop.
have [_ [-> _ _ _] -> ->] := make_resultP Hres.
have [Ep _ _] := finalize_samples st.
have Hd : (0 < npar)%N.
  case: maxiter Hloop {Hle} => [|k] //=.
  by case Hit: iteration => [[s1 b]|] // _; apply: iteration_dim Hit.
split=> //.
- by rewrite Ep size_cat size_map size_iota Sp.
- by rewrite size_map finalize_logwt // size_cat size_map Sw Sl.
Qed.

(** X2: the log-evidence never decreases: over any stretch of the main
    loop [logz] does not go down, it goes up strictly as soon as one pass
    is made, and FINALIZE does not lower it. *)
Theorem logz_never_decreases (n it : nat) (last : option nat)
    (st st1 : state) (last1 : option nat) (stopped : bool) :
  main_loop' n it last st = Some (st1, last1, stopped) ->
  [/\ (logz st <= logz st1)%Re,
      last1 <> last -> (logz st < logz st1)%Re
    & (logz st1 <= logz (finalize nobj st1))%Re].
Proof.
move=> Hloop.
have Hstep i s s1 b :
  iteration' i s = Some (s1, b) -> (logz s < logz s1)%Re.
  case/iterationP => w [u [v [logl /= [_ _ _ [_ _ _ ->] _]]]].
  exact: logaddexp_gt.
have Hlt : forall m i l s, m != 0%N ->
    main_loop' m i l s = Some (st1, last1, stopped) -> (logz s < logz st1)%Re.
  elim=> [|m IH] i l s // _ /=.
  case Hit: iteration => [[s2 b]|] //; have Hs := Hstep _ _ _ _ Hit.
  case: b Hit => Hit; first by case=> <- _ _.
  case: m IH => [|m] IH; first by case=> <- _ _.
  by move/(IH _ _ _ isT) => H2; apply: Rlt_trans Hs H2.
split; last by case: (finalize_samples st1).
- case: n Hloop => [|n]; first by case=> <- _ _; apply: Rle_refl.
  by move/(Hlt n.+1 _ _ _ isT)/Rlt_le.
- case: n Hloop => [|n]; first by case=> _ <- _.
  by move/(Hlt n.+1 _ _ _ isT).
Qed.

(** The evidence is the sum of the weights recorded so far, on top of
    the initial [e^logz_init]. *)
Lemma finalize_steps_evidence (l : seq nat) (st : state) :
  exp (logz st) = (exp logz_init + \sum_(w <- samples_logwt st) exp w)%Re ->
  let st1 := foldl (finalize_step (npar := npar)) st l in
  exp (logz st1) = (exp logz_init + \sum_(w <- samples_logwt st1) exp w)%Re.
Proof.
elim: l st => [|i l IH] st //= Hst; apply: IH => /=.
by rewrite exp_logaddexp Hst -cats1 big_cat big_seq1 /= -!RplusE Rplus_assoc.
Qed.

Lemma main_loop_evidence (g : rng) (k : nat) (st0 st : state)
    (last : option nat) (stopped : bool) :
  init_state' g = Some st0 ->
  main_loop' k 0 None st0 = Some (st, last, stopped) ->
  exp (logz st) = (exp logz_init + \sum_(w <- samples_logwt st) exp w)%Re.
Proof.
move=> Hinit Hloop.
pose P (_ : nat) (s : state) :=
  exp (logz s) = (exp logz_init + \sum_(w <- samples_logwt s) exp w)%Re.
suff : P (passes last) st by [].
apply: (main_loopP (P := P) _ (n := k) (it := 0) (last := None) _ _ Hloop) => //.
  move=> it s s1 b; rewrite /P => Hs.
  case/iterationP => w [u [v [logl /= [_ _ _ [_ -> _ ->] _]]]].
  by rewrite exp_logaddexp Hs -cats1 big_cat big_seq1 /= -!RplusE Rplus_assoc.
move: Hinit; rewrite /init_state /P; case: np_random_random => us g1.
by case: nobj => // n [<-] /=; rewrite big_nil; apply/esym/Rplus_0_r.
Qed.

(** X3: the normalized weights of the result sum to
    [1 - e^(logz_init - logz)]: the initial [logz = -1.e300] stands for a
    vanishing but positive evidence, by which the sum stays below one. *)
Theorem weights_sum (maxiter : nat) (g : rng) (res : result npar)
    (tr : seq event) :
  nest' maxiter g = Some (res, tr) ->
  \sum_(wt <- res_samples_wt res) wt
  = (1 - exp (logz_init - res_logz res))%Re /\
  forall wt, wt \in res_samples_wt res -> (0 < wt)%Re.
Proof.
case/nestP => st0 [st [it [stopped [Hinit Hloop Hres _]]]].
have [_ [_ _ -> _] _ ->] := make_resultP Hres.
split; last by move=> wt /mapP [lw _ ->]; apply: exp_pos.
have Hz : exp (logz (finalize nobj st))
  = (exp logz_init + \sum_(w <- samples_logwt (finalize nobj st)) exp w)%Re.
  rewrite /finalize; set s1 := (X in foldl _ X _).
  exact: (@finalize_steps_evidence (iota 0 nobj) s1
            (main_loop_evidence Hinit Hloop)).
move: Hz; set fs := finalize nobj st => Hz.
have Hpos := exp_pos (logz fs).
rewrite big_map.
have -> : \sum_(lw <- samples_logwt fs) exp (lw - logz fs)
          = (/ exp (logz fs) * \sum_(lw <- samples_logwt fs) exp lw)%Re.
  rewrite RmultE mulr_sumr; apply: eq_bigr => lw _.
  by rewrite /Rminus exp_plus exp_Ropp -RmultE Rmult_comm.
have -> : \sum_(lw <- samples_logwt fs) exp lw
          = (exp (logz fs) - exp logz_init)%Re.
  by move: Hz; set S := \sum_(_ <- _) _ => ->; lra.
have E (a b : R) : (/ exp a * (exp a - exp b) = 1 - exp (b - a))%Re.
  by have := exp_pos a; rewrite /Rminus exp_plus exp_Ropp => ?; field; lra.
exact: E.
Qed.

(** X4: the main loop never leaves by [break] before its twelfth pass;
    without [break] it makes all [k] passes. *)
Theorem no_break_before_twelve_passes (g : rng) (k : nat) (st0 st : state)
    (last : option nat) (stopped : bool) :
  init_state' g = Some st0 ->
  main_loop' k 0 None st0 = Some (st, last, stopped) ->
  if stopped then (12 <= passes last <= k)%N /\ (10 < ndecl st)%N
  else passes last = k.
Proof.
move=> Hinit Hloop.
have [_ _ [_ _ _ End0 Eold0] _] := init_stateP Hinit.
have [Hle Hall] := @main_loop_passes _ 0 None _ _ _ _ (erefl _) Hloop.
pose P (i : nat) (s : state) :=
  (ndecl s <= i.-1)%N /\ (i = 0%N -> logwt_old s = None).
have Hnd i s s1 b : P i s -> iteration' i s = Some (s1, b) -> (ndecl s1 <= i)%N.
  case=> Hs Hold.
  case/iterationP => w [u [v [logl /= [_ _ _ _ [_ -> _ _]]]]].
  rewrite /next_ndecl; case: i Hs Hold => [|i] Hs Hold; first by rewrite Hold.
  by case: (logwt_old s) => [o|] //; case: ifP => // _; rewrite ltnS.
have Hstep i s s1 : P i s -> iteration' i s = Some (s1, false) -> P i.+1 s1.
  by move=> HP Hit; split=> //; apply: Hnd HP Hit.
have HP0 : P 0%N st0 by rewrite /P End0.
have := main_loop_inv Hstep (n := k) (it := 0) (last := None) (erefl _) HP0 Hloop.
case: stopped Hloop Hle Hall => Hloop Hle Hall; last by move=> _; apply: Hall.
case=> it1 [st2 [Elast HP2 Hit2]].
have Hn1 := Hnd _ _ _ _ HP2 Hit2.
case/iterationP: Hit2 => w [u [v [logl /= [_ _ _ _ [_ _ Hstop _]]]]].
move: Hstop; rewrite /stop_rule; case/esym/andP => H10 _.
rewrite Elast /= in Hle *; split=> //.
by rewrite Hle andbT ltnS; apply: leq_trans Hn1.
Qed.

(** One pass keeps the live set in step, and so does the whole loop. *)
Lemma in_step_iteration (C : pred 'rV[R]_npar) (it : nat) (s s1 : state)
    (b : bool) :
  (forall u, ~~ outside_cube u -> C u) ->
  in_step C s -> iteration' it s = Some (s1, b) -> in_step C s1.
Proof.
move=> HC [Su Sv Sl HQ] Hit.
case Hw: (np_argmin (objects_logl s)) (iterationP Hit) => [w|]; last first.
  by case=> w [u [v [logl /= []]]].
move=> _; have [u [Hin _ Hu Hv Hl]] := iteration_accepts Hit Hw.
have [_ Eu Nu Fu] := assignP 0 Hu; have [_ Ev Nv Fv] := assignP 0 Hv.
have [_ El Nl Fl] := assignP 0%Re Hl.
split; rewrite ?Eu ?Ev ?El // => j Hj.
case: (altP (j =P w)) => [->|Hjw]; first by rewrite Nu Nv Nl; split=> //; apply: HC.
by rewrite Fu // Fv // Fl //; apply: HQ.
Qed.

Lemma in_step_init (C : pred 'rV[R]_npar) (g : rng) (st0 : state) :
  init_state' g = Some st0 ->
  (forall u, u \in objects_u st0 -> C u) -> in_step C st0.
Proof.
move=> Hinit HC; have [_ [Su0 Sv0 Sl0] _ _] := init_stateP Hinit.
split=> // j Hj.
have Hmem : nth 0 (objects_u st0) j \in objects_u st0 by rewrite mem_nth ?Su0.
have Hc := HC _ Hmem.
move: Hinit Su0 Hc; rewrite /init_state; case: np_random_random => us g1.
case: nobj Hj => // n Hj [<-] /= Su Hc.
by rewrite (nth_map 0) ?Su // (nth_map 0) ?size_map ?Su // (nth_map 0) ?Su.
Qed.

Lemma in_step_main_loop (C : pred 'rV[R]_npar) (g : rng) (k : nat)
    (st0 st : state) (last : option nat) (stopped : bool) :
  (forall u, ~~ outside_cube u -> C u) ->
  (forall u, u \in objects_u st0 -> C u) ->
  init_state' g = Some st0 ->
  main_loop' k 0 None st0 = Some (st, last, stopped) ->
  in_step C st.
Proof.
move=> HC HC0 Hinit Hloop.
pose P (_ : nat) (s : state) := in_step C s.
suff : P (passes last) st by [].
apply: (main_loopP (P := P) _ (n := k) (it := 0) (last := None) _ _ Hloop) => //.
  by move=> it s s1 b; apply: in_step_iteration.
exact: in_step_init Hinit HC0.
Qed.


(** X6: the likelihood constraint: after a pass every live point has a
    log-likelihood at least that of the point the pass eliminated, so the
    log-likelihood of the point eliminated next is no smaller. *)
Theorem live_points_above_constraint (it : nat) (st st1 : state)
    (stop : bool) (worst worst1 : nat) :
  iteration' it st = Some (st1, stop) ->
  np_argmin (objects_logl st) = Some worst ->
  np_argmin (objects_logl st1) = Some worst1 ->
  (forall j, (j < size (objects_logl st1))%N ->
     (nth 0 (objects_logl st) worst <= nth 0 (objects_logl st1) j)%Re) /\
  (nth 0 (objects_logl st) worst <= nth 0 (objects_logl st1) worst1)%Re.
Proof.
move=> Hit Hw Hw1.
have [u [_ Hlt _ _ Hl]] := iteration_accepts Hit Hw.
have [Hwl Hmin] := np_argminP Hw.
have [Hws El Nl Fl] := assignP 0%Re Hl.
have Hall j : (j < size (objects_logl st1))%N ->
    (nth 0 (objects_logl st) worst <= nth 0 (objects_logl st1) j)%Re.
  rewrite El => Hj; case: (altP (j =P worst)) => [->|Hjw].
    by rewrite Nl; apply: Rlt_le.
  by rewrite Fl //; apply: Hmin.
by split=> //; apply: Hall; case: (np_argminP Hw1).
Qed.

(** What FINALIZE leaves as it is. *)
Lemma finalize_frame (st : state) :
  [/\ trace (finalize nobj st) = trace st,
      loglcalls (finalize nobj st) = loglcalls st,
      objects_logl (finalize nobj st) = objects_logl st,
      objects_v (finalize nobj st) = objects_v st
    & logwidth (finalize nobj st)
      = final_logwidth nobj (size (samples_parvals st))].
Proof.
rewrite /finalize; set s1 := (X in foldl _ X _).
exact: (finalize_stepsP (iota 0 nobj) s1).
Qed.

(** The rejection loop of a pass: the points it evaluates, in order; the
    last one is the point it returns and no earlier one beat
    [loglstar]. *)
Lemma replace_loop_first (k : nat) vs mean loglstar calls g tr u v logl
    calls1 g1 tr1 :
  replace_loop' k vs mean loglstar calls g tr
    = Some (u, v, logl, calls1, g1, tr1) ->
  exists us : seq 'rV[R]_npar,
    [/\ filter (@is_call npar) tr1
          = filter (@is_call npar) tr ++ evaluations prior (rcons us u),
        calls1 = (calls + (size us).+1)%N
      & all (fun c => ~~ (loglstar <b loglikelihood (prior c))) us].
Proof.
elim: k calls g tr => [|k IH] calls g tr //=.
case: sample_ellipsoid => [[[c|?] g2]|] //.
case: ifP => _.
  case/IH => us [-> -> Hall]; exists us; split=> //.
  by rewrite -cats1 filter_cat /= /is_call /= cats0.
have Etr : filter (@is_call npar)
      (rcons (rcons (rcons tr (Candidate c)) (CallPrior c))
             (CallLoglikelihood (prior c)))
    = filter (@is_call npar) tr ++ evaluations prior [:: c].
  by rewrite -!cats1 !filter_cat /= /is_call /= cats0 -catA.
case: ifP => Hc.
  case=> <- _ _ <- _ <-; exists [::]; split=> //.
  by rewrite addn1.
case/IH => us [-> -> Hall]; exists (c :: us); split=> //.
- by rewrite Etr -catA.
- by rewrite addSnnS.
- by rewrite /= Hc.
Qed.

(** X7: a pass accepts the first candidate that beats the eliminated
    point: the points it evaluates are, in order, points [us] whose
    log-likelihood does not exceed that of the eliminated point, and then
    the point it writes into the live set; [loglcalls] grows by their
    number. *)
Theorem pass_accepts_first (it : nat) (st st1 : state) (stop : bool)
    (worst : nat) :
  iteration' it st = Some (st1, stop) ->
  np_argmin (objects_logl st) = Some worst ->
  exists us : seq 'rV[R]_npar,
    let u := nth 0 (objects_u st1) worst in
    let loglstar := nth 0%Re (objects_logl st) worst in
    [/\ filter (@is_call npar) (trace st1)
          = filter (@is_call npar) (trace st)
            ++ evaluations prior (rcons us u),
        loglcalls st1 = (loglcalls st + (size us).+1)%N,
        forall c, c \in us -> (loglikelihood (prior c) <= loglstar)%Re
      & (loglstar < loglikelihood (prior u))%Re].
Proof.
move=> Hit Hw.
case/iterationP: (Hit) => w [u [v [logl /= []]]]; rewrite Hw => -[<-].
move=> Hr [Hu _ _] _ _.
have [_ _ Nu _] := assignP 0 Hu.
have [us [Etr Ecalls Hall]] := replace_loop_first Hr.
have [added [_ [Ev El Hlt _] _ _]] := replace_loopP Hr.
exists us; rewrite /= Nu; split=> //.
- by move=> c /(allP Hall) /negbTE /RltbF.
- by rewrite -Ev -El.
Qed.

(** X8: the two callbacks are called in pairs: leaving the candidates
    aside, the trace of a run is, for a list [us] of points of the unit
    cube, a call of [prior] on each point followed by a call of
    [loglikelihood] on what that call returned; [ncalls] is the length of
    the list. *)
Theorem callbacks_paired (maxiter : nat) (g : rng) (res : result npar)
    (tr : seq event) :
  nest' maxiter g = Some (res, tr) ->
  exists us : seq 'rV[R]_npar,
    filter (@is_call npar) tr = evaluations prior us /\
    size us = res_ncalls res.
Proof.
case/nestP => st0 [st [it [stopped [Hinit Hloop Hres ->]]]].
have [_ [_ -> _ _] _ _] := make_resultP Hres.
have [-> -> _ _ _] := finalize_frame st.
pose P (_ : nat) (s : state) :=
  exists us : seq 'rV[R]_npar,
    filter (@is_call npar) (trace s) = evaluations prior us /\
    size us = loglcalls s.
suff : P (passes (Some it)) st by [].
apply: (main_loopP (P := P) _ (n := maxiter) (it := 0) (last := None) _ _ Hloop).
- move=> i s s1 b [us [Htr Hus]].
  case/iterationP => w [u [v [logl /= [_ Hr _ _ _]]]].
  have [us1 [E1 E2 _]] := replace_loop_first Hr.
  exists (us ++ rcons us1 u); split.
    by rewrite E1 Htr /evaluations map_cat flatten_cat.
  by rewrite E2 size_cat size_rcons Hus.
- by [].
- have [_ [Su _ _] [_ El _ _ _] Et] := init_stateP Hinit.
  exists (objects_u st0); rewrite El Et; split=> //.
  rewrite /evaluations; elim: (objects_u st0) => [|u us IH] //=.
  by rewrite IH.
Qed.

(** X9: what the result holds: the samples are the points eliminated by
    the passes, in order, followed by the [nobj] live points that are left,
    in index order; the weight of a live point comes from the width of
    line 387 and its log-likelihood, and every weight is normalized by
    the final evidence. *)
Theorem result_samples (maxiter : nat) (g : rng) (res : result npar)
    (tr : seq event) :
  nest' maxiter g = Some (res, tr) ->
  exists st0 st stopped,
    [/\ init_state' g = Some st0,
        main_loop' maxiter 0 None st0
          = Some (st, Some (res_niter res).-1, stopped),
        res_samples_parvals res = samples_parvals st ++ objects_v st
      & res_samples_wt res
        = [seq exp (lw - res_logz res)
          | lw <- samples_logwt st
                  ++ [seq (final_logwidth nobj (res_niter res) + l)%Re
                     | l <- objects_logl st]]].
Proof.
case/nestP => st0 [st [it [stopped [Hinit Hloop Hres _]]]].
have [_ [-> _ -> _] -> ->] := make_resultP Hres.
have [Sp Sw [_ Sv Sl]] := main_loop_samples Hinit Hloop.
have [Ep _ _] := finalize_samples st.
exists st0, st, stopped; split=> //.
- rewrite Ep; congr (_ ++ _); rewrite -{1}Sv.
  apply: (@eq_from_nth _ 0); rewrite size_map size_iota //.
  by move=> i Hi; rewrite (nth_map 0%N) ?size_iota // nth_iota.
- by rewrite finalize_logwt // Sp.
Qed.

(** X10: [loglmax] is the log-likelihood of a live point left at the end
    of the run, and no live point has a greater one. *)
Theorem result_loglmax (maxiter : nat) (g : rng) (res : result npar)
    (tr : seq event) :
  nest' maxiter g = Some (res, tr) ->
  exists st0 st stopped,
    [/\ init_state' g = Some st0,
        main_loop' maxiter 0 None st0
          = Some (st, Some (res_niter res).-1, stopped),
        res_loglmax res \in objects_logl st
      & forall l, l \in objects_logl st -> (l <= res_loglmax res)%Re].
Proof.
case/nestP => st0 [st [it [stopped [Hinit Hloop Hres _]]]].
have [_ [-> _ _ _] _ _] := make_resultP Hres.
have [_ _ El _ _] := finalize_frame st.
move: Hres; rewrite /make_result; case: RltbP => // _.
case Hmax: np_max => [lmax|] // [<-] /=.
have [Hin Hall] := np_maxP Hmax; rewrite El in Hin Hall.
by exists st0, st, stopped.
Qed.


(** The records of the passes: the width after [i] passes, the weight
    recorded by pass [i], and the invariant of the information
    accumulator. *)
Lemma main_loop_records (g : rng) (k : nat) (st0 st : state)
    (last : option nat) (stopped : bool) :
  init_state' g = Some st0 ->
  main_loop' k 0 None st0 = Some (st, last, stopped) ->
  [/\ logwidth st
        = (ln (1 - exp (- 1 / INR nobj)) - INR (passes last) / INR nobj)%Re,
      forall i, (i < passes last)%N ->
        nth 0%Re (samples_logwt st) i
        = (ln (1 - exp (- 1 / INR nobj)) - INR i / INR nobj
           + loglikelihood (nth 0%R (samples_parvals st) i))%Re
    & ((h st + logz st) * exp (logz st)
       = logz_init * exp logz_init
         + \sum_(p <- zip (samples_logwt st) (samples_parvals st))
              exp p.1 * loglikelihood p.2)%Re].
Proof.
move=> Hinit Hloop.
have [Hn _ [E0 _ Ews0 _ _] _] := init_stateP Hinit.
have Hn0 : INR nobj <> 0%Re by apply: not_0_INR; case: nobj Hn.
set w0 := ln _ in E0 *.
pose P (i : nat) (s : state) :=
  [/\ in_step predT s,
      size (samples_parvals s) = i /\ size (samples_logwt s) = i,
      logwidth s = (w0 - INR i / INR nobj)%Re,
      forall j, (j < i)%N ->
        nth 0%Re (samples_logwt s) j
        = (w0 - INR j / INR nobj
           + loglikelihood (nth 0%R (samples_parvals s) j))%Re
    & ((h s + logz s) * exp (logz s)
       = logz_init * exp logz_init
         + \sum_(p <- zip (samples_logwt s) (samples_parvals s))
              exp p.1 * loglikelihood p.2)%Re].
suff [_ _ Hw Hnth Hsum] : P (passes last) st by [].
apply: (main_loopP (P := P) _ (n := k) (it := 0) (last := None) _ _ Hloop) => //.
  move=> it s s1 b [Hstep [Sp Sw] Ew Hnth Hsum] Hit.
  have Hstep1 := in_step_iteration (fun u _ => isT) Hstep Hit.
  case/iterationP: Hit => w [u [v [logl /= [Hwm _ _ [Ep El Eh Ez] [Ewd _ _ _]]]]].
  have [Hws _] := np_argminP Hwm.
  have [_ _ Sl HQ] := Hstep; rewrite Sl in Hws.
  have [_ Elogl _] := HQ _ Hws.
  split=> //.
  - by rewrite Ep El !size_rcons Sp Sw.
  - by rewrite Ewd Ew S_INR; field.
  - move=> j; rewrite ltnS leq_eqVlt Ep El !nth_rcons Sp Sw.
    case/orP => [/eqP ->|Hj]; last by rewrite Hj; apply: Hnth.
    by rewrite ltnn eqxx Ew Elogl.
  - rewrite Eh Ez update_h_sum Hsum Ep El zip_rcons ?Sp ?Sw //.
    rewrite -cats1 big_cat big_seq1 /= -Elogl.
    have E (x y z : R) : (x + (y + z) = y + (z + x))%Re by ring.
    exact: E.
split=> //.
- exact: in_step_init Hinit (fun u _ => isT).
- by move: Hinit; rewrite /init_state; case: np_random_random => us g1;
     case: nobj => // n [<-].
- by rewrite E0 /=; field.
- move: Hinit; rewrite /init_state; case: np_random_random => us g1.
  case: nobj => // n [<-] /=; rewrite big_nil.
  by rewrite Rplus_0_l; apply/esym/Rplus_0_r.
Qed.

Lemma finalize_steps_records (l : seq nat) (st : state) :
  let st1 := foldl (finalize_step (npar := npar)) st l in
  ((h st1 + logz st1) * exp (logz st1)
   = (h st + logz st) * exp (logz st)
     + \sum_(i <- l) exp (logwidth st + nth 0%Re (objects_logl st) i)
                      * nth 0%Re (objects_logl st) i)%Re.
Proof.
elim: l st => [|i l IH] st /=.
  by rewrite big_nil; apply/esym/Rplus_0_r.
rewrite IH /= update_h_sum big_cons.
have E (x y z : R) : (x + y + z = y + (x + z))%Re by ring.
exact: E.
Qed.

(** The records of a whole run, after FINALIZE. *)
Lemma finalize_records (g : rng) (k : nat) (st0 st : state)
    (it : nat) (stopped : bool) :
  init_state' g = Some st0 ->
  main_loop' k 0 None st0 = Some (st, Some it, stopped) ->
  let fs := finalize nobj st in
  let fw := final_logwidth nobj it.+1 in
  [/\ samples_parvals fs = samples_parvals st ++ objects_v st,
      samples_logwt fs
        = samples_logwt st
          ++ [seq (fw + loglikelihood v)%Re | v <- objects_v st]
    & ((h fs + logz fs) * exp (logz fs)
       = logz_init * exp logz_init
         + \sum_(p <- zip (samples_logwt fs) (samples_parvals fs))
              exp p.1 * loglikelihood p.2)%Re].
Proof.
move=> Hinit Hloop fs fw.
have [Sp Sw [Su Sv Sl]] := main_loop_samples Hinit Hloop.
have [_ _ Hsum] := main_loop_records Hinit Hloop.
have [_ _ _ HQ] := in_step_main_loop (fun u _ => isT) (fun u _ => isT)
                     Hinit Hloop.
have Elogl : objects_logl st = [seq loglikelihood v | v <- objects_v st].
  apply: (@eq_from_nth _ 0%Re); rewrite ?size_map ?Sl ?Sv // => i Hi.
  by rewrite (nth_map 0) ?Sv //; case: (HQ i Hi).
have Ep : samples_parvals fs = samples_parvals st ++ objects_v st.
  have [-> _ _] := finalize_samples st; congr (_ ++ _); rewrite -{1}Sv.
  apply: (@eq_from_nth _ 0); rewrite size_map size_iota // => i Hi.
  by rewrite (nth_map 0%N) ?size_iota // nth_iota.
have Ew : samples_logwt fs
    = samples_logwt st ++ [seq (fw + loglikelihood v)%Re | v <- objects_v st].
  by rewrite /fs finalize_logwt // Sp /fw Elogl -map_comp.
split=> //.
rewrite Ew Ep zip_cat ?Sp ?Sw // big_cat /=.
have -> : zip [seq (fw + loglikelihood v)%Re | v <- objects_v st]
              (objects_v st)
          = [seq ((fw + loglikelihood v)%Re, v) | v <- objects_v st].
  by elim: (objects_v st) => [|v vs IH] //=; rewrite IH.
rewrite big_map /=.
have := finalize_steps_records (iota 0 nobj)
  (State (objects_u st) (objects_v st) (objects_logl st) (samples_parvals st)
     (samples_logwt st) (h st) (logz st)
     (final_logwidth nobj (size (samples_parvals st)))
     (loglcalls st) (ndecl st) (logwt_old st) (gen st) (trace st)).
rewrite -/(finalize nobj st) -/fs /= Sp -/fw => ->.
rewrite Hsum -!RplusE Rplus_assoc; congr (_ + (_ + _))%Re.
rewrite [RHS](big_nth 0) Sv /index_iota subn0 [LHS]big_seq [RHS]big_seq.
apply: eq_bigr => i; rewrite mem_iota add0n => /andP [_ Hi].
by case: (HQ i Hi) => _ <- _.
Qed.

(** X13: the weight of every sample in closed form: sample [i] of the
    result has the weight [exp(width_i + loglikelihood(v_i) - logz)],
    where [v_i] is its entry of [samples_parvals] and [width_i] is the log
    width [log(1 - e^(-1/nobj)) - i/nobj] for the samples eliminated by
    the passes, and the width of line 387 for the live points added at
    the end. *)
Theorem sample_weights (maxiter : nat) (g : rng) (res : result npar)
    (tr : seq event) (i : nat) :
  nest' maxiter g = Some (res, tr) ->
  (i < res_niter res + nobj)%N ->
  nth 0%Re (res_samples_wt res) i
  = exp ((if (i < res_niter res)%N
          then ln (1 - exp (- 1 / INR nobj)) - INR i / INR nobj
          else final_logwidth nobj (res_niter res))
         + loglikelihood (nth 0%R (res_samples_parvals res) i)
         - res_logz res)%Re.
Proof.
case/nestP => st0 [st [it [stopped [Hinit Hloop Hres _]]]] Hi.
have [_ [En _ Ez _] Ep Ew] := make_resultP Hres.
have [Sp Sw [Su Sv Sl]] := main_loop_samples Hinit Hloop.
have [_ Hnth _] := main_loop_records Hinit Hloop.
have [Efp Efw _] := finalize_records Hinit Hloop.
rewrite En in Hi *; rewrite Ew Ep Ez Efp Efw.
rewrite (nth_map 0%Re) ?size_cat ?size_map ?Sw ?Sv //.
rewrite !nth_cat Sw Sp; case: ifP => Hlt; first by rewrite Hnth.
rewrite (nth_map 0) // Sv -(ltn_add2l it.+1) subnKC //.
by rewrite leqNgt Hlt.
Qed.

(** X14: the information in closed form: the [h] of the result is the
    mean of the log-likelihood of the samples under their weights, minus
    [logz], up to the share [e^(logz0 - logz) * logz0] of the initial
    [logz0 = -1.e300]. *)
Theorem information_sum (maxiter : nat) (g : rng) (res : result npar)
    (tr : seq event) :
  nest' maxiter g = Some (res, tr) ->
  res_h res
  = (\sum_(p <- zip (res_samples_wt res) (res_samples_parvals res))
        p.1 * loglikelihood p.2
     + exp (logz_init - res_logz res) * logz_init - res_logz res)%Re.
Proof.
case/nestP => st0 [st [it [stopped [Hinit Hloop Hres _]]]].
have [_ [_ _ -> ->] -> ->] := make_resultP Hres.
have [_ _] := finalize_records Hinit Hloop.
set fs := finalize nobj st; set z := logz fs.
rewrite zip_map1 big_map /=.
set S := \sum_(_ <- _) _ => HS.
have -> : \sum_(p <- zip (samples_logwt fs) (samples_parvals fs))
             exp (p.1 - z) * loglikelihood p.2 = (/ exp z * S)%Re.
  rewrite /S RmultE mulr_sumr; apply: eq_bigr => p _.
  rewrite /Rminus exp_plus exp_Ropp.
  have E (x y t : R) : (x * y * t = y * (x * t))%Re by ring.
  exact: E.
have Hz := exp_pos z.
have E (a b c d e : R) : (0 < e)%Re -> ((a + b) * e = c * d + S)%Re ->
    (a = / e * S + d / e * c - b)%Re.
  by move=> He H; apply: (Rmult_eq_reg_r e); last lra; field_simplify; lra.
rewrite /Rminus exp_plus exp_Ropp; exact: E.
Qed.

End NestMore.

(** ** The unit ball and the volume floor *)

Lemma ball_volumeSS (k : nat) :
  ball_volume k.+2 = (2 * PI / INR k.+2 * ball_volume k)%Re.
Proof. by []. Qed.

Lemma volume_loop_ball (m k fuel : nat) (c : R) :
  (m <= fuel)%N ->
  volume_loop fuel k.+2 (k + 2 * m) (c * ball_volume k)%Re
  = (c * ball_volume (k + 2 * m))%Re.
Proof.
elim: m k fuel c => [|m IH] k fuel c Hm.
  rewrite muln0 addn0; case: fuel {Hm} => [|fuel] //=.
  by rewrite ltnNge leqnSn.
case: fuel Hm => [|fuel] // Hm.
rewrite [volume_loop _ _ _ _]/=.
have -> : (k.+2 <= k + 2 * m.+1)%N by rewrite mulnS addnA addn2 leq_addr.
have -> : (k + 2 * m.+1 = k.+2 + 2 * m)%N by rewrite mulnS addnA addn2.
have -> : (k.+2 + 2 = k.+4)%N by rewrite addn2.
have -> : (c * ball_volume k * (2 / INR k.+2 * PI)
           = c * ball_volume k.+2)%Re.
  rewrite ball_volumeSS.
  have Hk : (0 < INR k.+2)%Re by apply/lt_0_INR/ltP.
  by field; lra.
exact: IH.
Qed.

Lemma unit_ball_volumeE (n : nat) : unit_ball_volume n = ball_volume n.
Proof.
rewrite /unit_ball_volume.
have Hn : (n = n %% 2 + 2 * (n %/ 2))%N by rewrite addnC mulnC -divn_eq.
have Hf : (n %/ 2 <= n)%N by apply: leq_div.
case: ifP => [/eqP E|].
  rewrite {2 3}Hn E add0n.
  have := @volume_loop_ball (n %/ 2) 0 n 1 Hf.
  by rewrite add0n /= !Rmult_1_l.
have := ltn_pmod n (isT : (0 < 2)%N); case E: (n %% 2)%N => [|[|r]] // _ _.
rewrite {2 3}Hn E.
have := @volume_loop_ball (n %/ 2) 1 n 1 Hf.
by rewrite /= !Rmult_1_l.
Qed.

(** X16: whatever function [np_det] stands for, the volume that
    [ellipsoid_volume] computes from it is the square root of its value
    at the shape times the volume of the unit ball of the dimension,
    which the two loops build by the recurrence
    [V_n = 2 pi / n * V_(n-2)] from [V_0 = 1] and [V_1 = 2]. *)
Theorem ellipsoid_volume_ball (np_det : forall n : nat, 'M[R]_n -> R)
    (n : nat) (shape : 'M[R]_n) :
  ellipsoid_volume np_det shape = (sqrt (np_det n shape) * ball_volume n)%Re.
Proof. by rewrite ellipsoid_volumeE unit_ball_volumeE. Qed.

(** X17: for a function [np_det] that is homogeneous of degree [n] at
    the shape, as the determinant is, scaling the semi-axes of an
    ellipsoid by [c >= 0], that is its shape by [c^2], scales the volume
    that [ellipsoid_volume] computes by [c^n]. *)
Theorem ellipsoid_volume_scale_axes (np_det : forall n : nat, 'M[R]_n -> R)
    (n : nat) (c : R) (shape : 'M[R]_n) :
  (0 <= c)%Re ->
  np_det n ((c ^ 2)%Re *: shape) = ((c ^ 2) ^ n * np_det n shape)%Re ->
  ellipsoid_volume np_det ((c ^ 2)%Re *: shape)
  = (c ^ n * ellipsoid_volume np_det shape)%Re.
Proof.
move=> Hc Hdet; have Hc2 : (0 <= c ^ 2)%Re by apply: pow_le.
rewrite (ellipsoid_volume_scale Hc2 Hdet); congr (_ * _)%Re.
rewrite -pow_mult Nat.mul_comm pow_mult; have -> : ((c ^ n) ^ 2 = c ^ n * c ^ n)%Re by ring.
by apply: sqrt_square; apply: pow_le.
Qed.

(** ** The draws of the samplers *)

Section SamplerMore.

Variable rng : Type.
Variable rand : rng -> R * rng.
Variable randn : rng -> R * rng.
Variable eig : forall n : nat, 'M[R]_n -> 'rV[R]_n * 'M[R]_n.

Local Notation randsphere' := (randsphere rand randn).
Local Notation sample_ellipsoid' := (sample_ellipsoid rand randn eig).
Local Notation sample_rows' := (sample_rows rand randn).

Lemma size_draws (draw : rng -> R * rng) (n : nat) (g : rng) :
  size (draws draw n g).1 = n.
Proof.
elim: n g => [|n IH] g //=; case: (draw g) => a g1.
by case E: (draws draw n g1) (IH g1) => [s g2] /= ->.
Qed.

(** X18: [randsphere] draws [n] normal deviates and then one uniform
    deviate [r]; unless all the normal deviates are zero, the point it
    returns has the norm [r ** (1/n)]. *)
Theorem randsphere_radius (n : nat) (g g1 g2 : rng) (zs : seq R) (r : R) :
  draws randn n g = (zs, g1) -> rand g1 = (r, g2) ->
  has (fun z => z != 0%Re) zs ->
  exists s,
    randsphere' n g = Some (s, g2) /\
    sqnorm s = (float_pow r (1 / INR n) ^ 2)%Re.
Proof.
move=> Hz Hr Hnz; have Hsz := size_draws randn n g; rewrite Hz /= in Hsz.
rewrite /randsphere /np_random_randn Hz Hr {Hz Hr}.
case: n Hsz => [|n] Hsz; first by case: zs Hsz Hnz.
set z := vec_of_seq n.+1 zs; set c := float_pow _ _; set d := sqrt _.
eexists; split; first by reflexivity.
have Hsum : (0 < \sum_k (z ord0 k ^ 2)%Re)%Re.
  case/hasP: Hnz => a /(nthP 0%Re) [i Hi <-] /eqP Ha; rewrite Hsz in Hi.
  rewrite (bigD1 (Ordinal Hi)) //.
  apply: Rplus_lt_le_0_compat.
    by rewrite !mxE [nat_of_ord _]/=; move: Ha; set b := nth _ _ _ => Ha; nra.
  elim/big_rec: _ => [|k y _ Hy]; first exact: Rle_refl.
  by apply: Rplus_le_le_0_compat => //; apply: pow2_ge_0.
have Hd : (0 < d)%Re by apply: sqrt_lt_R0.
have Hdd : (d * d = \sum_k (z ord0 k ^ 2)%Re)%Re by apply/sqrt_sqrt/Rlt_le.
have -> : sqnorm (\row_j (z ord0 j * c / d)%Re)
          = ((c / d) ^ 2 * \sum_k (z ord0 k ^ 2)%Re)%Re.
  rewrite /sqnorm mxE RmultE mulr_sumr; apply: eq_bigr => j _.
  by rewrite !mxE -!RmultE; field; lra.
by rewrite -Hdd; field; lra.
Qed.

Lemma sample_rowsP (n : nat) (vs : 'M[R]_n) (c : 'rV[R]_n) (k : nat) (g : rng) :
  match sample_rows' vs c k g with
  | Some (xs, _) => size xs = k /\ ((0 < k)%N -> (0 < n)%N)
  | None => n = 0%N /\ (0 < k)%N
  end.
Proof.
elim: k g => [|k IH] g //=.
rewrite /randsphere /np_random_randn; case: draws => zs g1.
case: n vs c IH => [|n] vs c IH //.
case: (rand g1) => r g2.
by case: sample_rows (IH g2) => [[xs g3]|] [] //= -> _.
Qed.

(** X19: when [sample_ellipsoid] returns and what: in a positive
    dimension every call returns, a single point when [nsamples] is 1 and
    else an array of [nsamples] points; in dimension zero a call for at
    least one sample raises. *)
Theorem sample_ellipsoid_outcome (n : nat) (shape : 'M[R]_n)
    (center : 'rV[R]_n) (nsamples : nat) (g : rng) :
  if (0 < n)%N then
    match sample_ellipsoid' shape center nsamples g with
    | Some (inl _, _) => nsamples = 1%N
    | Some (inr xs, _) => nsamples <> 1%N /\ size xs = nsamples
    | None => False
    end
  else (0 < nsamples)%N -> sample_ellipsoid' shape center nsamples g = None.
Proof.
have Hrows := sample_rowsP (scaled_eigenvectors eig shape) center nsamples g.
case: n shape center Hrows => [|n] shape center Hrows.
  rewrite ltnn /sample_ellipsoid => Hns; case: eqP => _.
    by rewrite /randsphere /np_random_randn; case: draws.
  by case: sample_rows Hrows => [[xs g1]|] // [_ /(_ Hns)].
rewrite ltn0Sn /sample_ellipsoid; case: eqP => [->|Hns].
  rewrite /randsphere /np_random_randn; case: draws => zs g1.
  by case: (rand g1).
by case: sample_rows Hrows => [[xs g1]|] [].
Qed.

(** X20: an array of samples is drawn point by point: a call for
    [k + 1 >= 2] samples returns the point of a call for one sample
    followed by the points of a call for [k] samples made from the
    generator state the first call left. *)
Theorem sample_ellipsoid_compose (n : nat) (shape : 'M[R]_n)
    (center : 'rV[R]_n) (k : nat) (g g1 g2 : rng) (x : 'rV[R]_n)
    (res : 'rV[R]_n + seq 'rV[R]_n) :
  (0 < k)%N ->
  sample_ellipsoid' shape center 1 g = Some (inl x, g1) ->
  sample_ellipsoid' shape center k g1 = Some (res, g2) ->
  sample_ellipsoid' shape center k.+1 g = Some (inr (x :: points_of res), g2).
Proof.
set vs := scaled_eigenvectors eig shape.
have E m g0 : sample_rows' vs center m.+1 g0
    = if randsphere' n g0 is Some (s, g3) then
        if sample_rows' vs center m g3 is Some (xs, g4) then
          Some ((s *m vs^T + center) :: xs, g4)
        else None
      else None by [].
move=> Hk H1 Hk1.
have [s [Ex Hs]] :
    exists s, x = s *m vs^T + center /\ randsphere' n g = Some (s, g1).
  move: H1; rewrite /sample_ellipsoid -/vs eqxx.
  by case: randsphere => [[s g3]|] // [<- <-]; exists s.
have Hrows : sample_rows' vs center k g1 = Some (points_of res, g2).
  move: Hk1; rewrite /sample_ellipsoid -/vs; case: eqP => [Ek|_].
    rewrite Ek E /=; case: randsphere => [[s2 g3]|] // [<- <-].
    by [].
  by case: sample_rows => [[xs g3]|] // [<- <-].
rewrite /sample_ellipsoid -/vs.
have -> : (k.+1 == 1%N) = false by case: k Hk {Hk1 Hrows}.
by rewrite E Hs Hrows Ex.
Qed.

End SamplerMore.

(** ** The fit: center, shape and enclosure *)


Lemma np_mean_shift (n : nat) (x : seq 'rV[R]_n) (t : 'rV[R]_n) :
  x <> [::] -> np_mean [seq r + t | r <- x] = np_mean x + t.
Proof.
move=> Hx; rewrite /np_mean size_map big_map big_split /= scalerDr; congr (_ + _).
rewrite big_const_seq count_predT iter_addr_0 -scaler_nat scalerA natr_INR.
have Hm : (0 < INR (size x))%Re.
  by apply/lt_0_INR/ltP; case: x Hx.
have E : (/ INR (size x) * INR (size x))%Re = 1%Re by field; lra.
by rewrite -RmultE E scale1r.
Qed.

Lemma np_mean_mul (n : nat) (x : seq 'rV[R]_n) (a : 'M[R]_n) :
  np_mean [seq r *m a | r <- x] = np_mean x *m a.
Proof. by rewrite /np_mean size_map big_map -scalemxAl mulmx_suml. Qed.

Lemma np_cov_mul (n : nat) (y : seq 'rV[R]_n) (a : 'M[R]_n) :
  np_cov [seq r *m a | r <- y] = a^T *m np_cov y *m a.
Proof.
rewrite /np_cov size_map np_mean_mul big_map -scalemxAr -scalemxAl.
congr (_ *: _); rewrite mulmx_sumr mulmx_suml; apply: eq_bigr => r _.
by rewrite -mulmxBl trmx_mul !mulmxA.
Qed.

Lemma invmx_congr (n : nat) (a c : 'M[R]_n) :
  a \in unitmx -> c \in unitmx ->
  invmx (a^T *m c *m a) = invmx a *m invmx c *m invmx a^T.
Proof.
move=> Ha Hc; have Hat : a^T \in unitmx by rewrite unitmx_tr.
have Hb : a^T *m c *m a \in unitmx by rewrite !unitmx_mul Hat Hc Ha.
set b := a^T *m c *m a; set d := _ *m invmx a^T.
have Hbd : b *m d = 1%:M.
  rewrite /b /d !mulmxA mulmxK // mulmxK //.
  by rewrite mulmxV.
by rewrite -[LHS]mulmx1 -Hbd mulmxA mulVmx // mul1mx.
Qed.

Section FitMore.

Variable inv_singular : forall n : nat, 'M[R]_n -> option 'M[R]_n.

Local Notation np_linalg_inv' := (np_linalg_inv inv_singular).
Local Notation bounding_ellipsoid' := (bounding_ellipsoid inv_singular).
Local Notation mahalanobis_factors' := (mahalanobis_factors inv_singular).

(** The fit of the image of points with an invertible covariance under
    an invertible affine map, from the fit of the points. *)
Lemma bounding_ellipsoid_image (n : nat) (x : seq 'rV[R]_n)
    (a : 'M[R]_n) (t : 'rV[R]_n) :
  (1 < size x)%N -> a \in unitmx ->
  np_cov [seq r - np_mean x | r <- x] \in unitmx ->
  bounding_ellipsoid' [seq r *m a + t | r <- x]
  = if bounding_ellipsoid' x is Some (shape, center) then
      Some (a^T *m shape *m a, center *m a + t)
    else None.
Proof.
move=> Hm Ha Hc; have Hx : x <> [::] by case: (x) Hm.
have Hxa : [seq r *m a | r <- x] <> [::] by case: (x) Hx.
move: Hc; set y := [seq r - np_mean x | r <- x] => Hc.
have Emean : np_mean [seq r *m a + t | r <- x] = np_mean x *m a + t.
  have -> : [seq r *m a + t | r <- x] = [seq r + t | r <- [seq r *m a | r <- x]].
    by rewrite -map_comp.
  by rewrite np_mean_shift // np_mean_mul.
have Ep : [seq r - np_mean [seq r *m a + t | r <- x]
          | r <- [seq r *m a + t | r <- x]] = [seq r *m a | r <- y].
  rewrite Emean /y -!map_comp; apply: eq_map => r /=.
  by rewrite opprD addrACA subrr addr0 mulmxBl.
rewrite /bounding_ellipsoid Ep Emean -/y np_cov_mul /np_linalg_inv.
have Hat : a^T \in unitmx by rewrite unitmx_tr.
rewrite !unitmx_mul Hat Ha Hc /=.
case: ifP => // _.
have -> : [seq quad_form r (invmx (a^T *m np_cov y *m a)) r
          | r <- [seq r *m a | r <- y]]
        = [seq quad_form r (invmx (np_cov y)) r | r <- y].
  rewrite -map_comp; apply: eq_map => r /=.
  rewrite /quad_form invmx_congr // trmx_mul !mulmxA mulmxK //.
  by rewrite -!mulmxA mulKmx // !mulmxA.
case: np_max => // fmax.
by rewrite -scalemxAr -scalemxAl.
Qed.

(** X21: the fit follows an invertible affine map [r |-> r a + t] of two
    or more points with an invertible covariance: whenever the fit
    returns on the points and on their image, the center of the second is
    the image of the center of the first and the shape [s] has become
    [a^T s a]. *)
Theorem bounding_ellipsoid_affine (n : nat) (x : seq 'rV[R]_n)
    (a : 'M[R]_n) (t : 'rV[R]_n) (shape shape' : 'M[R]_n)
    (center center' : 'rV[R]_n) :
  (1 < size x)%N -> a \in unitmx ->
  np_cov [seq r - np_mean x | r <- x] \in unitmx ->
  bounding_ellipsoid' x = Some (shape, center) ->
  bounding_ellipsoid' [seq r *m a + t | r <- x] = Some (shape', center') ->
  shape' = a^T *m shape *m a /\ center' = center *m a + t.
Proof.
move=> Hm Ha Hc Hfit.
by rewrite (bounding_ellipsoid_image t Hm Ha Hc) Hfit => -[<- <-].
Qed.




Lemma size_factors (n : nat) (x : seq 'rV[R]_n) (ds : seq R) :
  mahalanobis_factors' x = Some ds -> size ds = size x.
Proof.
rewrite /mahalanobis_factors; case: ifP => // _.
case: np_linalg_inv => // ci [<-].
by rewrite !size_map.
Qed.

(** X23: for points with an invertible covariance, under the inverse of
    the fitted shape no input point has a quadratic form above the square
    root of the largest factor, and a point with the largest factor
    attains it. *)
Theorem fit_point_bound (n : nat) (x : seq 'rV[R]_n) (shape : 'M[R]_n)
    (center : 'rV[R]_n) (ds : seq R) (dmax : R) :
  np_cov [seq r - np_mean x | r <- x] \in unitmx ->
  bounding_ellipsoid' x = Some (shape, center) ->
  mahalanobis_factors' x = Some ds ->
  np_max ds = Some dmax ->
  (0 < dmax)%Re ->
  exists shape_inv,
    [/\ np_linalg_inv' shape = Some shape_inv,
        forall i, (i < size x)%N ->
          (quad_form (nth 0%R x i - center) shape_inv (nth 0%R x i - center)
           <= sqrt dmax)%Re
      & exists2 i, (i < size x)%N
          & quad_form (nth 0 x i - center) shape_inv (nth 0 x i - center)
            = sqrt dmax].
Proof.
move=> HC Hfit Hds Hmax Hd.
have [si [Hsi Hq]] := fit_quadratic_form HC Hfit Hds Hmax Hd.
have [Hin Hall] := np_maxP Hmax; have Hsz := size_factors Hds.
have Hs : (0 < sqrt dmax)%Re by apply: sqrt_lt_R0.
have Hss : (sqrt dmax * sqrt dmax = dmax)%Re by apply: sqrt_sqrt; lra.
exists si; split=> //.
- move=> i Hi; rewrite Hq //.
  have Hdi : (nth 0 ds i <= dmax)%Re by apply: Hall; rewrite mem_nth ?Hsz.
  apply: (Rmult_le_reg_r (sqrt dmax)) => //.
  by rewrite Hss /Rdiv Rmult_assoc Rinv_l; lra.
- case/(nthP 0%Re): Hin => i Hi Ei; rewrite Hsz in Hi; exists i => //.
  rewrite Hq // Ei; apply: (Rmult_eq_reg_r (sqrt dmax)); last by lra.
  by rewrite Hss /Rdiv Rmult_assoc Rinv_l; lra.
Qed.

Lemma np_mean_centered (n : nat) (x : seq 'rV[R]_n) :
  x <> [::] -> np_mean [seq r - np_mean x | r <- x] = 0.
Proof. by move=> Hx; rewrite np_mean_shift // subrr. Qed.

Lemma sum_rows_mx (n : nat) (V : zmodType) (y : seq 'rV[R]_n)
    (F : 'rV[R]_n -> V) :
  \sum_(r <- y) F r = \sum_(i < size y) F (row i (rows_mx y)).
Proof.
rewrite (big_nth 0) big_mkord; apply: eq_bigr => i _.
by rewrite rowK.
Qed.

Lemma gram_rows_mx (n : nat) (y : seq 'rV[R]_n) :
  \sum_(r <- y) r^T *m r = (rows_mx y)^T *m rows_mx y.
Proof.
rewrite sum_rows_mx; apply/matrixP => a b; rewrite summxE mxE.
by apply: eq_bigr => i _; rewrite !mxE big_ord1 !mxE.
Qed.

Lemma rank_centered (n : nat) (y : seq 'rV[R]_n) :
  \sum_(r <- y) r = 0 -> (\rank (rows_mx y) <= (size y).-1)%N.
Proof.
move=> Hsum; have [Hm|Hm] := posnP (size y).
  by apply: leq_trans (rank_leq_row _) _; rewrite Hm.
have H0 : (const_mx 1 : 'rV[R]_(size y)) *m rows_mx y = 0.
  apply/rowP => j; rewrite -[RHS]/((0 : 'rV[R]_n) 0 j) -Hsum (sum_rows_mx y id).
  rewrite summxE mxE; apply: eq_bigr => i _.
  by rewrite !mxE mul1r.
have := mulmx0_rank_max H0.
have -> : \rank (const_mx 1 : 'rV[R]_(size y)) = 1%N.
  apply/eqP; rewrite eqn_leq rank_leq_row lt0n mxrank_eq0.
  apply/eqP => /rowP /(_ (Ordinal Hm)); rewrite !mxE.
  by move/eqP; rewrite oner_eq0.
by rewrite add1n => H; rewrite -ltnS prednK.
Qed.

(** The covariance of [n] or fewer points in dimension [n >= 1] is
    singular: the centered points add up to zero, so they span fewer than
    [n] dimensions. *)
Lemma centered_cov_singular (n : nat) (x : seq 'rV[R]_n) :
  (0 < n)%N -> (size x <= n)%N ->
  np_cov [seq r - np_mean x | r <- x] \notin unitmx.
Proof.
move=> Hn Hm; set y := [seq r - np_mean x | r <- x].
have Hsum : \sum_(r <- y) r = 0.
  case: x Hm @y => [|a x] Hm y; first by rewrite big_nil.
  have Hax : a :: x <> [::] by [].
  have := np_mean_centered Hax; rewrite -/y /np_mean => /eqP.
  rewrite scaler_eq0 => /orP [] /eqP // H.
  have : (INR (size y) <> 0)%Re by apply: not_0_INR; rewrite size_map.
  by move/Rinv_neq_0_compat.
have Hy : np_mean y = 0 by rewrite /np_mean Hsum scaler0.
rewrite -row_free_unit /row_free neq_ltn; apply/orP; left.
rewrite /np_cov Hy.
have -> : \sum_(r <- y) (r - 0)^T *m (r - 0) = (rows_mx y)^T *m rows_mx y.
  by rewrite -gram_rows_mx; apply: eq_bigr => r _; rewrite subr0.
apply: leq_ltn_trans (mxrank_scale _ _) _.
apply: leq_ltn_trans (mxrankM_maxr _ _) _.
apply: leq_ltn_trans (rank_centered Hsum) _.
by rewrite size_map; case: (size x) Hm.
Qed.

Lemma quad_form_trace (n : nat) (r : 'rV[R]_n) (a : 'M[R]_n) :
  quad_form r a r = \tr (a *m (r^T *m r)).
Proof.
rewrite /quad_form [RHS]mxtrace_mulC -[in RHS]mulmxA [RHS]mxtrace_mulC.
by rewrite /mxtrace big_ord1.
Qed.

(** The Mahalanobis factors of [m >= 2] points in dimension [n] with an
    invertible covariance add up to [(m - 1) n]. *)
Lemma factors_sum (n : nat) (x : seq 'rV[R]_n) (ds : seq R) :
  (1 < size x)%N ->
  np_cov [seq r - np_mean x | r <- x] \in unitmx ->
  mahalanobis_factors' x = Some ds ->
  \sum_(d <- ds) d = ((INR (size x) - 1) * INR n)%Re.
Proof.
move=> Hm; rewrite /mahalanobis_factors /np_linalg_inv.
set y := [seq r - np_mean x | r <- x]; set C := np_cov y.
move=> HC; rewrite HC; case: ifP => // _ [<-].
have Hx : x <> [::] by case: (x) Hm.
have Hm1 : (0 < INR (size x) - 1)%Re.
  have : (2 <= INR (size x))%Re by rewrite -[2%Re]/(INR 2); apply/le_INR/leP.
  by lra.
pose S : 'M[R]_n := \sum_(r <- y) r^T *m r.
have ES : S = (INR (size x) - 1)%Re *: C.
  rewrite /C /np_cov np_mean_centered // size_map scalerA.
  have -> : (INR (size x) - 1)%Re * (/ (INR (size x) - 1))%Re = 1.
    by apply: Rinv_r; lra.
  by rewrite scale1r; apply: eq_bigr => r _; rewrite subr0.
rewrite big_map.
have -> : \sum_(r <- y) quad_form r (invmx C) r = \tr (invmx C *m S).
  rewrite mulmx_sumr raddf_sum /=; apply: eq_bigr => r _.
  exact: quad_form_trace.
rewrite ES -scalemxAr mulVmx // linearZ /= mxtrace1 natr_INR.
by [].
Qed.

Lemma sum_le_max (s : seq R) (b : R) :
  (forall a, a \in s -> (a <= b)%Re) ->
  (\sum_(a <- s) a <= INR (size s) * b)%Re.
Proof.
elim: s => [|a s IH] H; first by rewrite big_nil /= Rmult_0_l; apply: Rle_refl.
rewrite big_cons -RplusE [size _]/= S_INR.
have Ha : (a <= b)%Re by apply: H; rewrite inE eqxx.
have Hs : (\sum_(j <- s) j <= INR (size s) * b)%Re.
  by apply: IH => c Hc; apply: H; rewrite inE Hc orbT.
by move: Hs; set T := \sum_(j <- s) j => Hs; lra.
Qed.

(** X25: in dimension two or more the fit does not enclose points with
    an invertible covariance: whenever it returns on two or more such
    points, some input point has a quadratic form above one under the
    inverse of the returned shape. *)
Theorem fit_never_encloses (n : nat) (x : seq 'rV[R]_n) (shape : 'M[R]_n)
    (center : 'rV[R]_n) :
  (1 < n)%N -> (1 < size x)%N ->
  np_cov [seq r - np_mean x | r <- x] \in unitmx ->
  bounding_ellipsoid' x = Some (shape, center) ->
  exists shape_inv i,
    [/\ np_linalg_inv' shape = Some shape_inv, (i < size x)%N
      & (1 < quad_form (nth 0%R x i - center) shape_inv
                       (nth 0%R x i - center))%Re].
Proof.
move=> Hn _ HC Hfit.
have Hm : (2 < size x)%N.
  rewrite ltnNge; apply/negP => Hle.
  have := centered_cov_singular (ltnW Hn) (leq_trans Hle Hn).
  by rewrite HC.
move: (Hfit); rewrite bounding_ellipsoidE.
case Hds: mahalanobis_factors => [ds|] //.
case Hmax: np_max => [dmax|] // _.
have [Hin Hall] := np_maxP Hmax; have Hsz := size_factors Hds.
have Hsum := factors_sum (ltnW Hm) HC Hds.
have Hle := sum_le_max Hall; rewrite Hsum Hsz in Hle.
have Hn2 : (2 <= INR n)%Re by rewrite -[2%Re]/(INR 2); apply/le_INR/leP.
have Hm3 : (3 <= INR (size x))%Re.
  by have /leP/le_INR := Hm; rewrite [INR 3]/=; lra.
have Hd : (1 < dmax)%Re by nra.
have Hd0 : (0 < dmax)%Re by lra.
have [si [Hsi Hq]] := fit_quadratic_form HC Hfit Hds Hmax Hd0.
have Hs : (1 < sqrt dmax)%Re by rewrite -sqrt_1; apply: sqrt_lt_1_alt; lra.
have Hss : (sqrt dmax * sqrt dmax = dmax)%Re by apply: sqrt_sqrt; lra.
case/(nthP 0%Re): Hin => i Hi Ei; rewrite Hsz in Hi.
exists si, i; split=> //; rewrite Hq // Ei.
have -> : (dmax / sqrt dmax = sqrt dmax)%Re.
  by rewrite -{1}Hss; field; lra.
by [].
Qed.

End FitMore.

(** ** Instances of the further properties *)

Module MoreDemo.

Import Tape FitInput RunInput NestDemo.

(** The completed run on [tape1] has one pass and one live point. *)
Lemma result_sizes_witness :
  exists res tr,
    nest_d 1 1 1 tape1 = Some (res, tr) /\
    [/\ (0 < 1)%N /\ (0 < 1)%N, (0 < res_niter res <= 1)%N,
        size (res_samples_parvals res) = (res_niter res + 1)%N
      & size (res_samples_wt res) = (res_niter res + 1)%N].
Proof.
have [res [tr E]] := run1_nest.
by exists res, tr; split=> //; apply: (result_sizes E).
Defined.

Lemma logz_never_decreases_witness :
  [/\ (logz st1_init <= logz st1_pass)%Re,
      Some 0%N <> None -> (logz st1_init < logz st1_pass)%Re
    & (logz st1_pass <= logz (finalize 1 st1_pass))%Re].
Proof. exact: (logz_never_decreases run1_loop). Defined.

Lemma weights_sum_witness :
  exists res tr,
    nest_d 1 1 1 tape1 = Some (res, tr) /\
    (\sum_(wt <- res_samples_wt res) wt
     = (1 - exp (logz_init - res_logz res))%Re /\
     forall wt, wt \in res_samples_wt res -> (0 < wt)%Re).
Proof.
have [res [tr E]] := run1_nest.
by exists res, tr; split=> //; apply: (weights_sum E).
Defined.

(** The run of fifteen passes leaves by [break] in its fifteenth
    pass. *)
Lemma no_break_before_twelve_passes_witness :
  exists st0 st,
    [/\ init_state_t 1 tape15 = Some st0,
        main_loop_t 1 1 15 0 None st0 = Some (st, Some 14%N, true)
      & (12 <= passes (Some 14%N) <= 15)%N /\ (10 < ndecl st)%N].
Proof.
have [st [Hinit Hloop _]] := run15.
case E: (init_state_t 1 tape15) Hinit => [st0|] // _.
exists st0, st; split=> //; first exact: Hloop.
exact: (no_break_before_twelve_passes E (Hloop _ E)).
Defined.


Lemma live_points_above_constraint_witness :
  (forall j, (j < size (objects_logl st1_pass))%N ->
     (nth 0 (objects_logl st1_init) 0 <= nth 0 (objects_logl st1_pass) j)%Re) /\
  (nth 0 (objects_logl st1_init) 0 <= nth 0 (objects_logl st1_pass) 0)%Re.
Proof.
exact: (live_points_above_constraint run1_pass (erefl (Some 0%N))
          (erefl (Some 0%N))).
Defined.

Lemma pass_accepts_first_witness :
  exists us : seq 'rV[R]_1,
    [/\ filter (@is_call 1) (trace st1_pass)
          = filter (@is_call 1) (trace st1_init)
            ++ evaluations prior (rcons us (nth 0 (objects_u st1_pass) 0)),
        loglcalls st1_pass = (loglcalls st1_init + (size us).+1)%N,
        forall c, c \in us ->
          (loglikelihood (prior c) <= nth 0 (objects_logl st1_init) 0)%Re
      & (nth 0 (objects_logl st1_init) 0
         < loglikelihood (prior (nth 0%R (objects_u st1_pass) 0)))%Re].
Proof. exact: (pass_accepts_first run1_pass (erefl (Some 0%N))). Defined.

Lemma callbacks_paired_witness :
  exists res tr,
    nest_d 1 1 1 tape1 = Some (res, tr) /\
    exists us : seq 'rV[R]_1,
      filter (@is_call 1) tr = evaluations prior us /\
      size us = res_ncalls res.
Proof.
have [res [tr E]] := run1_nest.
by exists res, tr; split=> //; apply: (callbacks_paired E).
Defined.

Lemma result_samples_witness :
  exists res tr,
    nest_d 1 1 1 tape1 = Some (res, tr) /\
    exists st0 st stopped,
      [/\ init_state_d 1 tape1 = Some st0,
          main_loop_d 1 1 1 0 None st0
            = Some (st, Some (res_niter res).-1, stopped),
          res_samples_parvals res = samples_parvals st ++ objects_v st
        & res_samples_wt res
          = [seq exp (lw - res_logz res)
            | lw <- samples_logwt st
                    ++ [seq (final_logwidth 1 (res_niter res) + l)%Re
                       | l <- objects_logl st]]].
Proof.
have [res [tr E]] := run1_nest.
by exists res, tr; split=> //; apply: (result_samples E).
Defined.

Lemma result_loglmax_witness :
  exists res tr,
    nest_d 1 1 1 tape1 = Some (res, tr) /\
    exists st0 st stopped,
      [/\ init_state_d 1 tape1 = Some st0,
          main_loop_d 1 1 1 0 None st0
            = Some (st, Some (res_niter res).-1, stopped),
          res_loglmax res \in objects_logl st
        & forall l, l \in objects_logl st -> (l <= res_loglmax res)%Re].
Proof.
have [res [tr E]] := run1_nest.
by exists res, tr; split=> //; apply: (result_loglmax E).
Defined.


Lemma sample_weights_witness :
  exists res tr,
    nest_d 1 1 1 tape1 = Some (res, tr) /\
    nth 0%Re (res_samples_wt res) 0
    = exp ((if (0 < res_niter res)%N
            then ln (1 - exp (- 1 / INR 1)) - INR 0 / INR 1
            else final_logwidth 1 (res_niter res))
           + loglikelihood (nth 0%R (res_samples_parvals res) 0)
           - res_logz res)%Re.
Proof.
have [res [tr E]] := run1_nest.
exists res, tr; split=> //.
have H : (0 < res_niter res + 1)%N by rewrite addn1.
exact: (sample_weights E H).
Defined.

Lemma information_sum_witness :
  exists res tr,
    nest_d 1 1 1 tape1 = Some (res, tr) /\
    res_h res
    = (\sum_(p <- zip (res_samples_wt res) (res_samples_parvals res))
          p.1 * loglikelihood p.2
       + exp (logz_init - res_logz res) * logz_init - res_logz res)%Re.
Proof.
have [res [tr E]] := run1_nest.
by exists res, tr; split=> //; apply: (information_sum E).
Defined.

(** Two live points and one pass: two does not divide one. *)
Lemma final_logwidth_floor_witness :
  (final_logwidth 2 1 < - INR 1 / INR 2 - ln (INR 2))%Re.
Proof. exact: (@final_logwidth_floor 2 1 isT). Defined.

(** Two normal deviates [1], [1] and the uniform deviate [1/4]. *)
Lemma randsphere_radius_witness :
  exists s,
    randsphere rand randn 2 [:: 1; 1; 1 / 4]%Re = Some (s, [::]) /\
    sqnorm s = (float_pow (1 / 4) (1 / INR 2) ^ 2)%Re.
Proof.
have H1 : (1 <> 0)%Re by lra.
have H4 : (0 <= 1 / 4 < 1)%Re by lra.
apply: (@randsphere_radius _ rand randn 2 _ [:: (1 / 4)%Re] _ [:: 1; 1]%Re).
- by rewrite /= /randn /= !TapeFacts.nonzero_id.
- by rewrite /rand /= TapeFacts.clip_id.
- by apply/hasP; exists 1%Re; rewrite ?inE ?eqxx //; apply/eqP.
Defined.

(** Two samples from the ellipsoid with shape [diag(4, 9)]. *)
Lemma sample_ellipsoid_compose_witness :
  exists x y,
    sample_ellipsoid rand randn eig_diag (mat2 4 0 0 9) (vec2 1 1) 2
      [:: 1; 1; 1 / 4; 1; 1; 1 / 9]%Re
    = Some (inr [:: x; y], [::]).
Proof.
have [x E1] : exists x,
    sample_ellipsoid rand randn eig_diag (mat2 4 0 0 9) (vec2 1 1) 1
      [:: 1; 1; 1 / 4; 1; 1; 1 / 9]%Re
    = Some (inl x, [:: 1; 1; 1 / 9]%Re).
  by rewrite /sample_ellipsoid /randsphere /np_random_randn /=; eexists.
have [y E2] : exists y,
    sample_ellipsoid rand randn eig_diag (mat2 4 0 0 9) (vec2 1 1) 1
      [:: 1; 1; 1 / 9]%Re
    = Some (inl y, [::]).
  by rewrite /sample_ellipsoid /randsphere /np_random_randn /=; eexists.
exists x, y.
exact: (sample_ellipsoid_compose (isT : (0 < 1)%N) E1 E2).
Defined.

(** The unit disc with its radius doubled, under the determinant. *)
Lemma ellipsoid_volume_scale_axes_witness :
  ellipsoid_volume det_mx ((2 ^ 2)%Re *: (1%:M : 'M[R]_2))
  = (2 ^ 2 * ellipsoid_volume det_mx (1%:M : 'M[R]_2))%Re.
Proof.
have H2 : (0 <= 2)%Re by lra.
have Hdet : det_mx ((2 ^ 2)%Re *: (1%:M : 'M[R]_2))
            = ((2 ^ 2) ^ 2 * det_mx (1%:M : 'M[R]_2))%Re.
  by rewrite /det_mx detZ exprR_pow.
exact: (ellipsoid_volume_scale_axes H2 Hdet).
Defined.

Lemma demo_unit : mat2 2 0 0 3 \in unitmx.
Proof. by apply: FitDemo.unit_diag2; lra. Qed.

Lemma demo_cov_unit :
  np_cov [seq r - np_mean demo_x | r <- demo_x] \in unitmx.
Proof.
by rewrite FitDemo.demo_prime FitDemo.demo_cov; apply: FitDemo.unit_diag2; lra.
Qed.

Lemma demo_image_fit :
  bounding_ellipsoid inv_raises demo_x_image
  = Some (mat2 24 0 0 9, vec2 3 5).
Proof.
rewrite /demo_x_image.
rewrite (bounding_ellipsoid_image _ _ (isT : (1 < size demo_x)%N) demo_unit
           demo_cov_unit).
rewrite FitDemo.demo_fit; congr (Some (_, _)).
- have -> : (mat2 2 0 0 3)^T = mat2 2 0 0 3 by FitDemo.mx2.
  by rewrite !FitDemo.mat2M; congr mat2; ring.
- have -> : vec2 1 1 *m mat2 2 0 0 3 = vec2 2 3.
    by FitDemo.mx2.
  by rewrite FitDemo.vec2D; congr vec2; ring.
Qed.

(** The four points [demo_x] and their image [demo_x_image]. *)
Lemma bounding_ellipsoid_affine_witness :
  mat2 24 0 0 9 = (mat2 2 0 0 3)^T *m mat2 6 0 0 1 *m mat2 2 0 0 3 /\
  vec2 3 5 = vec2 1 1 *m mat2 2 0 0 3 + vec2 1 2.
Proof.
exact: (bounding_ellipsoid_affine (isT : (1 < size demo_x)%N) demo_unit
          demo_cov_unit (FitDemo.demo_fit inv_raises) demo_image_fit).
Defined.


Lemma demo_max :
  np_max [:: 9 / 4; 7 / 4; 7 / 4; 1 / 4]%Re = Some (9 / 4)%Re.
Proof. by rewrite /np_max /= !Rmax_left //; lra. Qed.

Lemma fit_point_bound_witness :
  exists shape_inv,
    [/\ np_linalg_inv inv_raises (mat2 6 0 0 1) = Some shape_inv,
        forall i, (i < size demo_x)%N ->
          (quad_form (nth 0%R demo_x i - vec2 1 1) shape_inv
             (nth 0%R demo_x i - vec2 1 1) <= sqrt (9 / 4))%Re
      & exists2 i, (i < size demo_x)%N
          & quad_form (nth 0 demo_x i - vec2 1 1) shape_inv
              (nth 0 demo_x i - vec2 1 1) = sqrt (9 / 4)].
Proof.
have H : (0 < 9 / 4)%Re by lra.
exact: (fit_point_bound demo_cov_unit (FitDemo.demo_fit inv_raises)
          (FitDemo.demo_factors inv_raises) demo_max H).
Defined.

Lemma fit_never_encloses_witness :
  exists shape_inv i,
    [/\ np_linalg_inv inv_raises (mat2 6 0 0 1) = Some shape_inv,
        (i < size demo_x)%N
      & (1 < quad_form (nth 0%R demo_x i - vec2 1 1) shape_inv
                       (nth 0%R demo_x i - vec2 1 1))%Re].
Proof.
exact: (fit_never_encloses (isT : (1 < 2)%N) (isT : (1 < size demo_x)%N)
          demo_cov_unit (FitDemo.demo_fit inv_raises)).
Defined.

End MoreDemo.
